(** * DockOps update checker: a shallow embedding of [main.go]

    The development follows the Go source function by function:
    [parseImageName], the parsing loop of [getLocalImages], the defaulting
    step of [loadConfig], [getRemoteTags], [checkForUpdates] and the
    goroutine body of [main].  Everything the program takes from outside
    (the HTTP client, the JSON decoder, the [semver] package) is a field of
    an explicit environment record, so that every theorem holds for every
    behaviour of those collaborators. *)

From stdpp Require Import gmap strings list pretty.
From Stdlib Require Import Ascii ZArith Lia.

Local Open Scope string_scope.
Local Open Scope list_scope.
Local Open Scope Z_scope.

(** ** Go values *)

(** A Go [(T, error)] pair: either the value or the error's message. *)
Inductive result (A : Type) : Type :=
| Ok (a : A)
| Err (e : string).
Arguments Ok {A} a.
Arguments Err {A} e.

(** A Go call either returns or panics at run time. *)
Inductive exec (A : Type) : Type :=
| Returns (a : A)
| Panics (msg : string).
Arguments Returns {A} a.
Arguments Panics {A} msg.

Definition nil_deref : string :=
  "runtime error: invalid memory address or nil pointer dereference".

(** [int64] wrap-around, as for [time.Duration]. *)
Definition wrap64 (z : Z) : Z := (z + 2 ^ 63) mod 2 ^ 64 - 2 ^ 63.

(** ** [strings.Split] and [strings.Join] *)

(** [strings.Split(s, sep)] for a one-byte separator. *)
Fixpoint Split (s : string) (sep : ascii) : list string :=
  match s with
  | EmptyString => [EmptyString]
  | String c rest =>
      if Ascii.eqb c sep then EmptyString :: Split rest sep
      else match Split rest sep with
           | seg :: segs => String c seg :: segs
           | [] => [String c EmptyString]
           end
  end.

Fixpoint Join (elems : list string) (sep : string) : string :=
  match elems with
  | [] => ""
  | [x] => x
  | x :: rest => x +:+ sep +:+ Join rest sep
  end.

(** The Go slice expression [l[lo:hi]]. *)
Definition slice {A} (l : list A) (lo hi : nat) : list A :=
  take (hi - lo)%nat (drop lo l).

(** ** [ImageInfo] and [parseImageName] *)

Record ImageInfo : Type := mkImage {
  Registry : string;
  Repo : string;
  Tag : string
}.

Definition slash : ascii := "/"%char.
Definition colon : ascii := ":"%char.

Definition parseImageName (name : string) : result ImageInfo :=
  let parts := Split name slash in
  if (length parts <? 2)%nat then Err "invalid image name format"
  else
    let registry := default "" (parts !! 0%nat) in
    let repo := Join (slice parts 1 (length parts - 1)) "/" in
    let tagParts := Split (default "" (parts !! (length parts - 1)%nat)) colon in
    if negb (length tagParts =? 2)%nat then Err "invalid tag format"
    else
      let repo := repo +:+ "/" +:+ default "" (tagParts !! 0%nat) in
      let tag := default "" (tagParts !! 1%nat) in
      Ok {| Registry := registry; Repo := repo; Tag := tag |}.

(** ** Configuration *)

Record Config : Type := mkConfig {
  GCRAccessToken : string;
  RateLimit : Z;      (* time.Duration, nanoseconds *)
  MaxRetries : Z;     (* int *)
  RetryDelay : Z      (* time.Duration, nanoseconds *)
}.

Definition Second : Z := 1000000000.

(** The defaulting step of [loadConfig], applied to the unmarshalled
    configuration: a field is replaced only when it is exactly zero. *)
Definition setDefaults (c : Config) : Config :=
  {| GCRAccessToken := GCRAccessToken c;
     RateLimit := if RateLimit c =? 0 then Second / 10 else RateLimit c;
     MaxRetries := if MaxRetries c =? 0 then 3 else MaxRetries c;
     RetryDelay := if RetryDelay c =? 0 then Second else RetryDelay c |}.

(** ** The outside world *)

Record Request : Type := mkRequest {
  req_url : string;
  req_authorization : option string
}.

Record Response : Type := mkResponse {
  StatusCode : Z;
  Body : string
}.

(** What [client.Do] hands back.  With a nil error the response is never
    nil (the contract of [net/http]); with an error it usually is. *)
Inductive DoResult : Type :=
| DoOk (resp : Response)
| DoErr (e : string) (resp : option Response).

Definition do_resp (d : DoResult) : option Response :=
  match d with DoOk r => Some r | DoErr _ r => r end.

Definition do_err (d : DoResult) : option string :=
  match d with DoOk _ => None | DoErr e _ => Some e end.

(** The collaborators of [getRemoteTags].  [ClientDo n req] is the answer to
    the request [req] when [n] requests were issued before it. *)
Record Env : Type := mkEnv {
  NewRequestErr : string -> option string;
  ClientDo : nat -> Request -> DoResult;
  DecodeTags : string -> result (list string);
  TrimSpace : string -> string
}.

(** Everything a run does that can be observed from outside, in order. *)
Inductive Event : Type :=
| EvTick
| EvRequest (req : Request) (d : DoResult)
| EvLogRetry (n : Z) (delay : Z) (err : option string)
| EvSleep (d : Z)
| EvLogCheckError (repo : string) (err : string)
| EvResult (line : string).

(** The shared state: the [cache] map of [main] and the history so far. *)
Record World : Type := mkWorld {
  cache : gmap string (list string);
  trace : list Event
}.

Definition emit (w : World) (e : Event) : World :=
  {| cache := cache w; trace := trace w ++ [e] |}.

Definition store (w : World) (k : string) (tags : list string) : World :=
  {| cache := <[k := tags]> (cache w); trace := trace w |}.

Definition is_request (e : Event) : bool :=
  match e with EvRequest _ _ => true | _ => false end.

Definition is_tick (e : Event) : bool :=
  match e with EvTick => true | _ => false end.

(** A request that came back with a nil error and status 200. *)
Definition is_fetch (e : Event) : bool :=
  match e with
  | EvRequest _ (DoOk r) => StatusCode r =? 200
  | _ => false
  end.

Definition count (p : Event -> bool) (t : list Event) : nat :=
  length (filter (fun e => p e = true) t).

Definition requests (t : list Event) : nat := count is_request t.
Definition ticks (t : list Event) : nat := count is_tick t.
Definition fetches (t : list Event) : nat := count is_fetch t.

Definition sleeps (t : list Event) : list Z :=
  omap (fun e => match e with EvSleep d => Some d | _ => None end) t.

(** The indices a Go loop [for i := 0; i < n; i++] goes through. *)
Definition range (n : Z) : list Z := Z.of_nat <$> seq 0 (Z.to_nat n).

(** ** [getRemoteTags] *)

(** How control leaves one round of the retry loop. *)
Inductive Control : Type :=
| CContinue (resp : option Response) (retryDelay : Z)
| CBreak (resp : option Response)
| CReturn (r : result (list string))
| CPanic (msg : string).

(** How control leaves the loop as a whole: by a [return], by a panic, or
    at the statement after the loop with the current value of [resp]. *)
Inductive LoopExit : Type :=
| LReturn (r : result (list string))
| LPanic (msg : string)
| LAfter (resp : option Response).

(** [err == nil && resp.StatusCode == http.StatusOK]; [None] when the
    evaluation dereferences a nil [resp]. *)
Definition succeeded (err : option string) (resp : option Response) : option bool :=
  match err with
  | Some _ => Some false
  | None =>
      match resp with
      | Some r => Some (StatusCode r =? 200)
      | None => None
      end
  end.

Section Fetcher.

Variable config : Config.
Variable env : Env.

Section Loop.

Variables registry repo authMethod : string.

Definition tagsURL : string :=
  registry +:+ "/repositories/" +:+ repo +:+ "/tags/?page_size=1000".

(** The body of the [for] loop at index [i]; [retryDelay] is the variable
    of that name.  [config.MaxRetries - 1] is only evaluated with
    [MaxRetries >= 1], so it does not wrap; [retryDelay *= 2] can. *)
Definition attempt (i : Z) (retryDelay : Z) (w : World) : Control * World :=
  match NewRequestErr env tagsURL with
  | Some e => (CReturn (Err ("error creating HTTP request: " +:+ e)), w)
  | None =>
      let auth :=
        if String.eqb authMethod "gcloud" then
          if String.eqb (GCRAccessToken config) ""
          then Err "GCR_ACCESS_TOKEN not set in config"
          else Ok (Some ("Bearer " +:+ TrimSpace env (GCRAccessToken config)))
        else Ok None in
      match auth with
      | Err e => (CReturn (Err e), w)
      | Ok header =>
          let req := {| req_url := tagsURL; req_authorization := header |} in
          let d := ClientDo env (requests (trace w)) req in
          let resp := do_resp d in
          let err := do_err d in
          let w := emit w (EvRequest req d) in
          match succeeded err resp with
          | None => (CPanic nil_deref, w)
          | Some true => (CBreak resp, w)
          | Some false =>
              if i <? MaxRetries config - 1 then
                let w := emit w (EvLogRetry (i + 1) retryDelay err) in
                let w := emit w (EvSleep retryDelay) in
                (CContinue resp (wrap64 (retryDelay * 2)), w)
              else
                match err with
                | Some e =>
                    (CReturn (Err ("max retries exceeded: error fetching tags: " +:+ e)), w)
                | None =>
                    match resp with
                    | Some r =>
                        (CReturn (Err ("max retries exceeded: unexpected status code: "
                                       +:+ pretty (StatusCode r))), w)
                    | None => (CPanic nil_deref, w)
                    end
                end
          end
      end
  end.

(** The [for] loop over the remaining indices [idx]; [resp] is the variable
    of that name. *)
Fixpoint attempts (idx : list Z) (resp : option Response) (retryDelay : Z)
    (w : World) : LoopExit * World :=
  match idx with
  | [] => (LAfter resp, w)
  | i :: rest =>
      match attempt i retryDelay w with
      | (CContinue resp retryDelay, w) => attempts rest resp retryDelay w
      | (CBreak resp, w) => (LAfter resp, w)
      | (CReturn r, w) => (LReturn r, w)
      | (CPanic msg, w) => (LPanic msg, w)
      end
  end.

Definition getRemoteTags (w : World) : exec (result (list string)) * World :=
  let cacheKey := registry +:+ "/" +:+ repo in
  match cache w !! cacheKey with
  | Some cachedTags => (Returns (Ok cachedTags), w)
  | None =>
      match attempts (range (MaxRetries config)) None (RetryDelay config) w with
      | (LReturn r, w) => (Returns r, w)
      | (LPanic msg, w) => (Panics msg, w)
      | (LAfter None, w) => (Panics nil_deref, w)
      | (LAfter (Some resp), w) =>
          match DecodeTags env (Body resp) with
          | Err e => (Returns (Err ("error decoding JSON response: " +:+ e)), w)
          | Ok tags => (Returns (Ok tags), store w cacheKey tags)
          end
      end
  end.

End Loop.

End Fetcher.

(** ** The [semver] package, as far as [checkForUpdates] uses it *)

Record Semver : Type := mkSemver {
  Version : Type;
  NewVersion : string -> result Version;
  GreaterThan : Version -> Version -> bool;
  VersionString : Version -> string
}.

(** The precedence order of semantic versions is a strict weak order:
    nothing exceeds itself, exceeding is transitive, and a version that
    exceeds another exceeds, or is exceeded by, every third one. *)
Record SemverOrder (sv : Semver) : Prop := mkSemverOrder {
  gt_irrefl : forall v, GreaterThan sv v v = false;
  gt_trans : forall a b c,
    GreaterThan sv a b = true -> GreaterThan sv b c = true -> GreaterThan sv a c = true;
  gt_cotrans : forall a b c,
    GreaterThan sv a b = true -> GreaterThan sv a c = true \/ GreaterThan sv c b = true
}.

(** ** [checkForUpdates] and the goroutine of [main] *)

Section Checker.

Variable config : Config.
Variable env : Env.
Variable sv : Semver.

(** One round of the loop over [remoteTags]. *)
Definition pickLatest (latestVer : option (Version sv)) (tag : string)
    : option (Version sv) :=
  match NewVersion sv tag with
  | Ok v =>
      match latestVer with
      | None => Some v
      | Some l => if GreaterThan sv v l then Some v else latestVer
      end
  | Err _ => latestVer
  end.

Definition updateLine (repo : string) (currentVer latestVer : Version sv) : string :=
  "Update available for " +:+ repo +:+ ": " +:+ VersionString sv currentVer
    +:+ " -> " +:+ VersionString sv latestVer.

Definition checkForUpdates (image : ImageInfo) (w : World)
    : exec (result string) * World :=
  match getRemoteTags config env (Registry image) (Repo image) "gcloud" w with
  | (Panics msg, w) => (Panics msg, w)
  | (Returns (Err e), w) => (Returns (Err ("error getting remote tags: " +:+ e)), w)
  | (Returns (Ok remoteTags), w) =>
      match NewVersion sv (Tag image) with
      | Err e => (Returns (Err ("error parsing current version: " +:+ e)), w)
      | Ok currentVer =>
          match foldl pickLatest None remoteTags with
          | Some latestVer =>
              if GreaterThan sv latestVer currentVer
              then (Returns (Ok (updateLine (Repo image) currentVer latestVer)), w)
              else (Returns (Ok ""), w)
          | None => (Returns (Ok ""), w)
          end
      end
  end.

(** The body of the goroutine started for one image: take a tick from the
    rate limiter, run the check, log the error or send the update line. *)
Definition checkTask (img : ImageInfo) (w : World) : exec unit * World :=
  let w := emit w EvTick in
  match checkForUpdates img w with
  | (Panics msg, w) => (Panics msg, w)
  | (Returns (Err e), w) => (Returns tt, emit w (EvLogCheckError (Repo img) e))
  | (Returns (Ok update), w) =>
      if String.eqb update "" then (Returns tt, w)
      else (Returns tt, emit w (EvResult update))
  end.

(** The goroutines of [main], run one after the other in the order [imgs];
    an unrecovered panic in a goroutine ends the program. *)
Fixpoint runChecks (imgs : list ImageInfo) (w : World) : exec unit * World :=
  match imgs with
  | [] => (Returns tt, w)
  | img :: rest =>
      match checkTask img w with
      | (Panics msg, w) => (Panics msg, w)
      | (Returns _, w) => runChecks rest w
      end
  end.

End Checker.

(** ** The parsing loop of [getLocalImages] *)

(** Runs over the lines of the lister's output; returns the images and the
    [(line, error)] pairs that were logged. *)
Fixpoint getLocalImages_loop (lines : list string)
    : list ImageInfo * list (string * string) :=
  match lines with
  | [] => ([], [])
  | line :: rest =>
      let '(images, logged) := getLocalImages_loop rest in
      match parseImageName line with
      | Err e => (images, (line, e) :: logged)
      | Ok img => (img :: images, logged)
      end
  end.

(** ** A small implementation of the [semver] interface

    Plain [major[.minor[.patch]]] versions with an optional leading [v],
    compared field by field.  It is what the examples below run on; the
    theorems hold for every implementation. *)

Module PlainSemver.

Definition digit (c : ascii) : option nat :=
  let n := nat_of_ascii c in
  if ((48 <=? n) && (n <=? 57))%nat then Some (n - 48)%nat else None.

Fixpoint number_from (acc : nat) (s : string) : option nat :=
  match s with
  | EmptyString => Some acc
  | String c rest =>
      match digit c with
      | Some d => number_from (10 * acc + d)%nat rest
      | None => None
      end
  end.

Definition number (s : string) : option nat :=
  match s with
  | EmptyString => None
  | _ => number_from 0%nat s
  end.

Definition parse (s : string) : result (nat * nat * nat) :=
  let s := match s with String "v"%char rest => rest | _ => s end in
  match number <$> Split s "."%char with
  | [Some a] => Ok (a, 0%nat, 0%nat)
  | [Some a; Some b] => Ok (a, b, 0%nat)
  | [Some a; Some b; Some c] => Ok (a, b, c)
  | _ => Err "Invalid Semantic Version"
  end.

Definition gt (x y : nat * nat * nat) : bool :=
  let '(a, b, c) := x in
  let '(a', b', c') := y in
  ((a' <? a) || ((a =? a') && ((b' <? b) || ((b =? b') && (c' <? c)))))%nat.

Definition show (x : nat * nat * nat) : string :=
  let '(a, b, c) := x in
  pretty a +:+ "." +:+ pretty b +:+ "." +:+ pretty c.

Definition impl : Semver :=
  {| Version := nat * nat * nat;
     NewVersion := parse;
     GreaterThan := gt;
     VersionString := show |}.

End PlainSemver.

(** ** Concurrent calls of [getRemoteTags]

    The goroutines of [main] share [cache], a plain map, without a lock.
    A call is cut at the places where it touches the shared state: the
    read of the map, each round of the retry loop, the decoding of the
    response and the write into the map.  A read or a write of the map
    takes time: it begins at one stop and ends at the next, and the other
    goroutines can move in between.  A write that overlaps another access
    of the map is a data race, and nothing is known of the map from then
    on. *)

Inductive Thread : Type :=
| AtLookup
| InLookup
| AtLoop (idx : list Z) (resp : option Response) (retryDelay : Z)
| AtDecode (resp : option Response)
| AtStore (tags : list string)
| InStore (tags : list string)
| Finished (r : exec (result (list string))).

Record Task : Type := mkTask {
  t_registry : string;
  t_repo : string;
  t_at : Thread
}.

(** How two accesses of the map have raced.  The runtime marks the map
    while it is written and looks at the mark where an access begins: an
    access that begins during a write ends the program with a fatal error.
    A write that begins during a read goes unseen, and what the read then
    returns is not defined. *)
Inductive Race : Type :=
| FatalError (msg : string)
| UnseenRace.

(** The goroutines, the shared state, and the race, once there was one. *)
Record Pool : Type := mkPool {
  tasks : list Task;
  world : World;
  race : option Race
}.

Section Threads.

Variable config : Config.
Variable env : Env.

Definition thread_step (registry repo : string) (t : Thread) (w : World)
    : Thread * World :=
  match t with
  | AtLookup => (InLookup, w)
  | InLookup =>
      match cache w !! (registry +:+ "/" +:+ repo) with
      | Some cachedTags => (Finished (Returns (Ok cachedTags)), w)
      | None => (AtLoop (range (MaxRetries config)) None (RetryDelay config), w)
      end
  | AtLoop [] resp _ => (AtDecode resp, w)
  | AtLoop (i :: rest) _ retryDelay =>
      match attempt config env registry repo "gcloud" i retryDelay w with
      | (CContinue resp retryDelay, w) => (AtLoop rest resp retryDelay, w)
      | (CBreak resp, w) => (AtDecode resp, w)
      | (CReturn r, w) => (Finished (Returns r), w)
      | (CPanic msg, w) => (Finished (Panics msg), w)
      end
  | AtDecode None => (Finished (Panics nil_deref), w)
  | AtDecode (Some resp) =>
      match DecodeTags env (Body resp) with
      | Err e => (Finished (Returns (Err ("error decoding JSON response: " +:+ e))), w)
      | Ok tags => (AtStore tags, w)
      end
  | AtStore tags => (InStore tags, w)
  | InStore tags =>
      (Finished (Returns (Ok tags)), store w (registry +:+ "/" +:+ repo) tags)
  | Finished r => (Finished r, w)
  end.

Definition panicked (k : Task) : bool :=
  match t_at k with Finished (Panics _) => true | _ => false end.

Definition reading (k : Task) : bool :=
  match t_at k with InLookup => true | _ => false end.

Definition writing (k : Task) : bool :=
  match t_at k with InStore _ => true | _ => false end.

(** The race a goroutine at [t] runs into when it moves while the others
    stand as in [pool]: a read that begins during a write, a write that
    begins during a write or during a read. *)
Definition overlap (pool : list Task) (t : Thread) : option Race :=
  match t with
  | AtLookup =>
      if existsb writing pool
      then Some (FatalError "concurrent map read and map write")
      else None
  | AtStore _ =>
      if existsb writing pool then Some (FatalError "concurrent map writes")
      else if existsb reading pool then Some UnseenRace
      else None
  | _ => None
  end.

(** The scheduler lets goroutine [i] take one step.  Nothing moves once a
    goroutine has panicked or two accesses of the map have raced, and an
    index outside the pool is a no-op. *)
Definition pool_step (i : nat) (p : Pool) : Pool :=
  if existsb panicked (tasks p) then p
  else
    match race p with
    | Some _ => p
    | None =>
        match tasks p !! i with
        | None => p
        | Some k =>
            match overlap (tasks p) (t_at k) with
            | Some r => {| tasks := tasks p; world := world p; race := Some r |}
            | None =>
                let '(t, w) := thread_step (t_registry k) (t_repo k) (t_at k) (world p) in
                {| tasks := <[i := {| t_registry := t_registry k; t_repo := t_repo k;
                                      t_at := t |}]> (tasks p);
                   world := w;
                   race := None |}
            end
        end
    end.

Fixpoint pool_run (sched : list nat) (p : Pool) : Pool :=
  match sched with
  | [] => p
  | i :: sched => pool_run sched (pool_step i p)
  end.

End Threads.

(** The pool at the start: every call is about to consult the map. *)
Definition spawn (keys : list (string * string)) (w : World) : Pool :=
  {| tasks := (fun k => {| t_registry := k.1; t_repo := k.2; t_at := AtLookup |}) <$> keys;
     world := w;
     race := None |}.

(** ** Example collaborators *)

Module Examples.

(** A registry stub whose body is a comma-separated tag list. *)
Definition decode_csv (body : string) : result (list string) :=
  if String.eqb body "not json" then Err "invalid character" else Ok (Split body ","%char).

Definition ok (body : string) : DoResult :=
  DoOk {| StatusCode := 200; Body := body |}.

Definition status (code : Z) : DoResult :=
  DoOk {| StatusCode := code; Body := "" |}.

(** Always answers 200 with three tags. *)
Definition up : Env :=
  {| NewRequestErr := fun _ => None;
     ClientDo := fun _ _ => ok "1.0.0,1.0.1,abc";
     DecodeTags := decode_csv;
     TrimSpace := fun s => s |}.

(** Never answers: every request ends in a transport error. *)
Definition down : Env :=
  {| NewRequestErr := fun _ => None;
     ClientDo := fun _ _ => DoErr "connection refused" None;
     DecodeTags := decode_csv;
     TrimSpace := fun s => s |}.

(** Answers 503 to the first request and 200 from then on. *)
Definition flaky : Env :=
  {| NewRequestErr := fun _ => None;
     ClientDo := fun n _ => match n with O => status 503 | _ => ok "1.0.0,1.0.1,abc" end;
     DecodeTags := decode_csv;
     TrimSpace := fun s => s |}.

(** Answers 200 with a body that does not decode. *)
Definition garbled : Env :=
  {| NewRequestErr := fun _ => None;
     ClientDo := fun _ _ => ok "not json";
     DecodeTags := decode_csv;
     TrimSpace := fun s => s |}.

Definition defaults : Config :=
  setDefaults {| GCRAccessToken := "secret"; RateLimit := 0; MaxRetries := 0; RetryDelay := 0 |}.

Definition no_token : Config :=
  setDefaults {| GCRAccessToken := ""; RateLimit := 0; MaxRetries := 0; RetryDelay := 0 |}.

Definition negative_retries : Config :=
  setDefaults {| GCRAccessToken := "secret"; RateLimit := 0; MaxRetries := -1; RetryDelay := 0 |}.

Definition fresh : World := {| cache := ∅; trace := [] |}.

Definition warm : World :=
  {| cache := {[ "gcr.io/proj/img" := ["1.0.0"; "1.0.1"; "abc"] ]}; trace := [] |}.

Definition img (tag : string) : ImageInfo :=
  {| Registry := "gcr.io"; Repo := "proj/img"; Tag := tag |}.

End Examples.

(** ** Vocabulary of the statements *)

(** The last index of a loop is [MaxRetries - 1], where a failed round
    returns instead of going on. *)
Definition closes (config : Config) (idx : list Z) : Prop :=
  forall i, last idx = Some i -> ~ i < MaxRetries config - 1.

(** The delays of [n] successive retries, starting from [d]. *)
Fixpoint backoff (d : Z) (n : nat) : list Z :=
  match n with
  | O => []
  | S n => d :: backoff (wrap64 (d * 2)) n
  end.

(** An answer that sends the loop into its failure path. *)
Definition failed (d : DoResult) : Prop :=
  match d with
  | DoOk r => StatusCode r <> 200
  | DoErr _ _ => True
  end.

(** The error the loop gives up with after the answer [d]. *)
Definition giveUp (d : DoResult) : string :=
  match d with
  | DoErr e _ => "max retries exceeded: error fetching tags: " +:+ e
  | DoOk r => "max retries exceeded: unexpected status code: " +:+ pretty (StatusCode r)
  end.

(** The request [getRemoteTags] builds under the [gcloud] scheme. *)
Definition bearerRequest (config : Config) (env : Env) (registry repo : string) : Request :=
  {| req_url := tagsURL registry repo;
     req_authorization := Some ("Bearer " +:+ TrimSpace env (GCRAccessToken config)) |}.

(** What a call writes to the history when every answer is a failure: the
    request, then the log line and the sleep before the next round, [n]
    times over, then the last request.  [k] requests came before, [i] is the
    loop index and [d] the current delay. *)
Fixpoint retryEvents (env : Env) (req : Request) (k : nat) (i d : Z) (n : nat)
    : list Event :=
  let answer := ClientDo env k req in
  match n with
  | O => [EvRequest req answer]
  | S n =>
      EvRequest req answer :: EvLogRetry (i + 1) d (do_err answer) :: EvSleep d
        :: retryEvents env req (S k) (i + 1) (wrap64 (d * 2)) n
  end.

(** [n] calls in a row for the same repository; the results in order. *)
Fixpoint fetchTimes (config : Config) (env : Env) (registry repo authMethod : string)
    (n : nat) (w : World) : list (exec (result (list string))) * World :=
  match n with
  | O => ([], w)
  | S n =>
      let '(r, w) := getRemoteTags config env registry repo authMethod w in
      let '(rs, w) := fetchTimes config env registry repo authMethod n w in
      (r :: rs, w)
  end.

(** The versions among the remote tags, in order. *)
Definition parsed (sv : Semver) (tags : list string) : list (Version sv) :=
  omap (fun tag => match NewVersion sv tag with Ok v => Some v | Err _ => None end) tags.

(** [m] is one of [vs] and none of [vs] exceeds it. *)
Definition maximal (sv : Semver) (vs : list (Version sv)) (m : Version sv) : Prop :=
  m ∈ vs /\ forall v, v ∈ vs -> GreaterThan sv v m = false.

(** The state of the loop over [remoteTags] after the versions [seen]. *)
Definition latest_of (sv : Semver) (seen : list (Version sv))
    (latestVer : option (Version sv)) : Prop :=
  match latestVer with
  | None => seen = []
  | Some l => maximal sv seen l
  end.

(** The key a goroutine reads and writes the map under. *)
Definition taskKey (k : Task) : string := t_registry k +:+ "/" +:+ t_repo k.

(** The successful fetches a call can still make from where it stands,
    with the map as it is: none when its lookup is still to end and the key
    is there. *)
Definition budget (c : gmap string (list string)) (k : Task) : nat :=
  match t_at k with
  | AtLookup | InLookup => match c !! taskKey k with Some _ => 0 | None => 1 end
  | AtLoop _ _ _ => 1
  | _ => 0
  end.

(** [tags] is what a 200 answer to the request for the tags of
    [registry]/[repo] decodes to. *)
Definition decoded (config : Config) (env : Env) (t : list Event)
    (registry repo : string) (tags : list string) : Prop :=
  exists resp,
    EvRequest (bearerRequest config env registry repo) (DoOk resp) ∈ t
    /\ StatusCode resp = 200
    /\ DecodeTags env (Body resp) = Ok tags.

(** What holds of a call at each of its stops. *)
Definition thread_ok (config : Config) (env : Env) (t : list Event) (k : Task) : Prop :=
  match t_at k with
  | AtLoop idx resp _ => closes config idx /\ (idx = [] -> resp = None)
  | AtDecode (Some r) =>
      EvRequest (bearerRequest config env (t_registry k) (t_repo k)) (DoOk r) ∈ t
      /\ StatusCode r = 200
  | AtStore tags | InStore tags => decoded config env t (t_registry k) (t_repo k) tags
  | _ => True
  end.

Definition pool_budget (c : gmap string (list string)) (pool : list Task) : nat :=
  sum_list_with (budget c) pool.

Definition pool_ok (config : Config) (env : Env) (t : list Event) (pool : list Task) : Prop :=
  Forall (thread_ok config env t) pool.

(** The calls of [keys] whose key is not in the map of [w]. *)
Definition uncached (w : World) (keys : list (string * string)) : list (string * string) :=
  filter (fun k => cache w !! (k.1 +:+ "/" +:+ k.2) = None) keys.

(** Every entry of the map of [w] was in the map of [w0], or it stands
    under the key of one of the calls [keys] and was decoded from a 200
    answer to the request for the tags of that call's repository. *)
Definition cache_sound (config : Config) (env : Env) (keys : list (string * string))
    (w0 w : World) : Prop :=
  forall k tags,
    cache w !! k = Some tags ->
    cache w0 !! k = Some tags
    \/ exists registry repo,
         (registry, repo) ∈ keys
         /\ k = registry +:+ "/" +:+ repo
         /\ decoded config env (trace w) registry repo tags.

(** What holds of a pool all along a run that started from the calls
    [keys] in the world [w0]: the calls stand soundly and are those of
    [keys], the map has kept what it had and is sound, and the successful
    fetches made and still possible are no more than there were calls with
    a key outside the map. *)
Definition pool_inv (config : Config) (env : Env) (keys : list (string * string))
    (w0 : World) (p : Pool) : Prop :=
  pool_ok config env (trace (world p)) (tasks p)
  /\ Forall (fun k => (t_registry k, t_repo k) ∈ keys) (tasks p)
  /\ cache_sound config env keys w0 (world p)
  /\ (forall k, is_Some (cache w0 !! k) -> is_Some (cache (world p) !! k))
  /\ (fetches (trace (world p)) + pool_budget (cache (world p)) (tasks p)
      <= fetches (trace w0) + length (uncached w0 keys))%nat.

(** ** [loadConfig] and [getLocalImages]

    What these take from outside is handed to them: the two answers of
    viper (the error of [ReadInConfig], if any, and the configuration as
    [Unmarshal] fills it from the zero value, or its error) and the output
    of the [docker image ls] command, or its error. *)

Inductive ReadError : Type :=
| ConfigFileNotFoundError (msg : string)
| OtherReadError (msg : string).

Record Viper : Type := mkViper {
  ReadInConfig : option ReadError;
  Unmarshal : result Config
}.

Definition loadConfig (v : Viper) : result Config :=
  match ReadInConfig v with
  | Some (ConfigFileNotFoundError e) =>
      Err ("config file not found, please create config.yaml: " +:+ e)
  | Some (OtherReadError e) => Err ("error reading config file: " +:+ e)
  | None =>
      match Unmarshal v with
      | Err e => Err ("error unmarshaling config: " +:+ e)
      | Ok c => Ok (setDefaults c)
      end
  end.

Definition newline : ascii := "010"%char.

(** Returns the images, or the error, and the [(line, error)] pairs that
    were logged on the way. *)
Definition getLocalImages (env : Env) (output : result string)
    : result (list ImageInfo) * list (string * string) :=
  match output with
  | Err e => (Err ("error executing docker command: " +:+ e), [])
  | Ok out =>
      let lines := Split (TrimSpace env out) newline in
      let '(images, logged) := getLocalImages_loop lines in
      (Ok images, logged)
  end.

(** The lines [main] prints: the update lines, in the order they were sent. *)
Definition printed (t : list Event) : list string :=
  omap (fun e => match e with EvResult line => Some line | _ => None end) t.

(** The check errors that were logged, with the repository they are logged
    under. *)
Definition checkErrors (t : list Event) : list (string * string) :=
  omap (fun e => match e with EvLogCheckError repo err => Some (repo, err) | _ => None end) t.

(** ** More example collaborators *)

Module MoreExamples.

(** A registry given by address and port.  The URL of [getRemoteTags] has
    no scheme, and [http.NewRequestWithContext] turns down a URL whose
    first path segment holds a colon.  No request gets an answer. *)
Definition local_registry : string := "127.0.0.1:5000".

Definition bad_url : Env :=
  {| NewRequestErr := fun url =>
       if String.eqb url (tagsURL local_registry "proj/img")
       then Some "first path segment in URL cannot contain colon"
       else None;
     ClientDo := fun _ _ => DoErr "connection refused" None;
     DecodeTags := Examples.decode_csv;
     TrimSpace := fun s => s |}.

(** One attempt and no more. *)
Definition single_attempt : Config :=
  {| GCRAccessToken := "secret"; RateLimit := Second / 10; MaxRetries := 1;
     RetryDelay := Second |}.

(** Answers 200 with two versions equal in precedence and a smaller one. *)
Definition ties : Env :=
  {| NewRequestErr := fun _ => None;
     ClientDo := fun _ _ => Examples.ok "1.0,2.0.0,v2.0,abc";
     DecodeTags := Examples.decode_csv;
     TrimSpace := fun s => s |}.

Definition config_file : Viper :=
  {| ReadInConfig := None;
     Unmarshal := Ok {| GCRAccessToken := "secret"; RateLimit := 0; MaxRetries := 0;
                        RetryDelay := 0 |} |}.

End MoreExamples.

(** ** More vocabulary *)

(** How often the byte [c] occurs in [s]. *)
Fixpoint occurrences (c : ascii) (s : string) : nat :=
  match s with
  | EmptyString => 0
  | String a rest => (if Ascii.eqb a c then 1 else 0) + occurrences c rest
  end.

(** The text after the last slash. *)
Definition lastSegment (name : string) : string :=
  default "" (last (Split name slash)).

(** The request [getRemoteTags] builds under the scheme [authMethod]. *)
Definition requestFor (config : Config) (env : Env) (registry repo authMethod : string)
    : Request :=
  {| req_url := tagsURL registry repo;
     req_authorization :=
       if String.eqb authMethod "gcloud"
       then Some ("Bearer " +:+ TrimSpace env (GCRAccessToken config))
       else None |}.

(** The requests in a history, each with its answer. *)
Definition exchanges (t : list Event) : list (Request * DoResult) :=
  omap (fun e => match e with EvRequest req d => Some (req, d) | _ => None end) t.

(** The number of retries that were logged. *)
Definition is_retry_log (e : Event) : bool :=
  match e with EvLogRetry _ _ _ => true | _ => false end.

Definition retryLogs (t : list Event) : nat := count is_retry_log t.

(** [n] failed rounds of the retry loop: the request, the log line and the
    sleep.  [k] requests came before, [i] is the loop index and [d] the
    current delay. *)
Fixpoint rounds (env : Env) (req : Request) (k : nat) (i d : Z) (n : nat)
    : list Event :=
  match n with
  | O => []
  | S n =>
      let answer := ClientDo env k req in
      EvRequest req answer :: EvLogRetry (i + 1) d (do_err answer) :: EvSleep d
        :: rounds env req (S k) (i + 1) (wrap64 (d * 2)) n
  end.

(** The loop gets as far as [client.Do]: the request can be built and the
    token, where the scheme asks for one, is there. *)
Definition passes (config : Config) (env : Env) (registry repo authMethod : string)
    : Prop :=
  NewRequestErr env (tagsURL registry repo) = None
  /\ (authMethod = "gcloud" -> GCRAccessToken config <> "").

(** One round of the loop over [remoteTags] for a tag that parses to [v]. *)
Definition pickVersion (sv : Semver) (latestVer : option (Version sv)) (v : Version sv)
    : option (Version sv) :=
  match latestVer with
  | None => Some v
  | Some l => if GreaterThan sv v l then Some v else latestVer
  end.

(** The events [getRemoteTags] records. *)
Definition fetch_event (e : Event) : bool :=
  match e with
  | EvRequest _ _ | EvLogRetry _ _ _ | EvSleep _ => true
  | _ => false
  end.

(** A line that reports a version newer than the tag of [img]. *)
Definition reports (sv : Semver) (img : ImageInfo) (line : string) : Prop :=
  exists currentVer latestVer,
    NewVersion sv (Tag img) = Ok currentVer
    /\ GreaterThan sv latestVer currentVer = true
    /\ line = updateLine sv (Repo img) currentVer latestVer.

(** * Properties *)

(** ** Running the model on small inputs *)

Example parse_three_segments :
  parseImageName "gcr.io/proj/img:1.0.0"
  = Ok {| Registry := "gcr.io"; Repo := "proj/img"; Tag := "1.0.0" |}.
Proof. reflexivity. Qed.

Example parse_port_in_registry :
  parseImageName "localhost:5000/team/app/web:2.1"
  = Ok {| Registry := "localhost:5000"; Repo := "team/app/web"; Tag := "2.1" |}.
Proof. reflexivity. Qed.

Example parse_bare : parseImageName "nginx:latest" = Err "invalid image name format".
Proof. reflexivity. Qed.

Example parse_no_tag : parseImageName "gcr.io/proj/img" = Err "invalid tag format".
Proof. reflexivity. Qed.

Example parse_two_colons : parseImageName "gcr.io/proj/img:a:b" = Err "invalid tag format".
Proof. reflexivity. Qed.

Example plain_parse : PlainSemver.parse "v1.2" = Ok (1, 2, 0)%nat.
Proof. reflexivity. Qed.

Example plain_reject : PlainSemver.parse "latest" = Err "Invalid Semantic Version".
Proof. reflexivity. Qed.

Example plain_show : PlainSemver.show (1, 10, 3)%nat = "1.10.3".
Proof. vm_compute. reflexivity. Qed.

Example defaults_are : Examples.defaults
  = {| GCRAccessToken := "secret"; RateLimit := 100000000; MaxRetries := 3;
       RetryDelay := 1000000000 |}.
Proof. reflexivity. Qed.

Example fetch_down :
  let '(r, w) := getRemoteTags Examples.defaults Examples.down "gcr.io" "proj/img" "gcloud"
                   Examples.fresh in
  r = Returns (Err "max retries exceeded: error fetching tags: connection refused")
  /\ requests (trace w) = 3%nat
  /\ sleeps (trace w) = [1000000000; 2000000000].
Proof. vm_compute. auto. Qed.

Example fetch_flaky :
  let '(r, w) := getRemoteTags Examples.defaults Examples.flaky "gcr.io" "proj/img" "gcloud"
                   Examples.fresh in
  r = Returns (Ok ["1.0.0"; "1.0.1"; "abc"])
  /\ requests (trace w) = 2%nat
  /\ cache w !! "gcr.io/proj/img" = Some ["1.0.0"; "1.0.1"; "abc"].
Proof. vm_compute. auto. Qed.

Example check_outdated :
  (checkForUpdates Examples.defaults Examples.up PlainSemver.impl (Examples.img "1.0.0")
     Examples.fresh).1
  = Returns (Ok "Update available for proj/img: 1.0.0 -> 1.0.1").
Proof. vm_compute. reflexivity. Qed.

Example check_current :
  (checkForUpdates Examples.defaults Examples.up PlainSemver.impl (Examples.img "v1.0.1")
     Examples.fresh).1
  = Returns (Ok "").
Proof. vm_compute. reflexivity. Qed.

(** ** Counting over the history *)

Lemma count_app p t1 t2 : count p (t1 ++ t2) = (count p t1 + count p t2)%nat.
Proof. unfold count. by rewrite filter_app, length_app. Qed.

Lemma count_emit p w e :
  count p (trace (emit w e)) = (count p (trace w) + if p e then 1 else 0)%nat.
Proof.
  unfold emit; simpl. rewrite count_app. f_equal.
  unfold count. rewrite filter_cons, filter_nil. by destruct (p e).
Qed.

Lemma requests_emit w e :
  requests (trace (emit w e)) = (requests (trace w) + if is_request e then 1 else 0)%nat.
Proof. apply count_emit. Qed.

Lemma ticks_emit w e :
  ticks (trace (emit w e)) = (ticks (trace w) + if is_tick e then 1 else 0)%nat.
Proof. apply count_emit. Qed.

Lemma sleeps_emit w e :
  sleeps (trace (emit w e))
  = sleeps (trace w) ++ match e with EvSleep d => [d] | _ => [] end.
Proof. unfold emit, sleeps; simpl. rewrite omap_app. by destruct e. Qed.

Lemma sleeps_app t1 t2 : sleeps (t1 ++ t2) = sleeps t1 ++ sleeps t2.
Proof. apply omap_app. Qed.

Lemma fetches_le_requests t : (fetches t <= requests t)%nat.
Proof.
  unfold fetches, requests, count.
  induction t as [|e t IH]; [done|].
  rewrite !filter_cons.
  destruct e as [| req [r|] | | | |]; simpl; repeat case_decide; simpl; try done; lia.
Qed.

(** ** What one round of the loop does *)

Section FetcherFacts.

Variable config : Config.
Variable env : Env.
Variables registry repo authMethod : string.

Local Abbreviation attempt := (attempt config env registry repo authMethod).
Local Abbreviation attempts := (attempts config env registry repo authMethod).
Local Abbreviation getRemoteTags := (getRemoteTags config env registry repo authMethod).
Local Abbreviation cacheKey := (registry +:+ "/" +:+ repo).

Lemma attempt_cache i d w : cache (attempt i d w).2 = cache w.
Proof. unfold attempt. by repeat case_match. Qed.

Lemma attempt_break_some i d w resp w' :
  attempt i d w = (CBreak resp, w') -> is_Some resp.
Proof.
  unfold attempt, succeeded. intros H.
  repeat case_match; simplify_eq; eauto.
Qed.

Lemma attempt_no_panic i d w msg w' : attempt i d w <> (CPanic msg, w').
Proof.
  unfold attempt, succeeded. intros H.
  repeat case_match; simplify_eq;
    match goal with Hd : do_err ?d = None |- _ => destruct d; simplify_eq end.
Qed.

Lemma attempt_continue_lt i d w resp d' w' :
  attempt i d w = (CContinue resp d', w') -> i < MaxRetries config - 1.
Proof.
  unfold attempt. intros H.
  repeat case_match; simplify_eq; lia.
Qed.

Lemma attempts_cache idx resp d w : cache (attempts idx resp d w).2 = cache w.
Proof.
  revert resp d w. induction idx as [|i idx IH]; intros resp d w; simpl; [done|].
  pose proof (attempt_cache i d w) as Hc.
  destruct (attempt i d w) as [[resp' d'| resp' | r | msg] w1]; simpl in *; try done.
  by rewrite IH.
Qed.

Lemma getRemoteTags_hit w tags :
  cache w !! cacheKey = Some tags -> getRemoteTags w = (Returns (Ok tags), w).
Proof. unfold getRemoteTags. by intros ->. Qed.

Lemma closes_tail i idx : closes config (i :: idx) -> idx <> [] -> closes config idx.
Proof.
  intros H Hne j Hj. apply (H j).
  destruct idx; [done|]. by rewrite last_cons_cons.
Qed.

Lemma closes_range : closes config (range (MaxRetries config)).
Proof.
  intros i Hi. unfold range in Hi.
  destruct (Z.to_nat (MaxRetries config)) as [|n] eqn:Hn; [done|].
  rewrite seq_S, fmap_app, list_fmap_singleton, last_snoc in Hi. simplify_eq. lia.
Qed.

Lemma range_nil n : n <= 0 -> range n = [].
Proof. intros H. unfold range. by replace (Z.to_nat n) with 0%nat by lia. Qed.

Lemma range_not_nil n : 1 <= n -> range n <> [].
Proof.
  intros H. unfold range.
  destruct (Z.to_nat n) eqn:Hn; [lia | done].
Qed.

Lemma attempt_break i d w resp w' :
  attempt i d w = (CBreak resp, w') ->
  exists req r,
    resp = Some r /\ StatusCode r = 200 /\ cache w' = cache w
    /\ trace w' = trace w ++ [EvRequest req (DoOk r)].
Proof.
  unfold attempt, succeeded. intros Ha.
  repeat case_match; simplify_eq;
    match goal with Hd : do_err ?d = None |- _ => destruct d eqn:?; simpl in *; simplify_eq end;
    eexists _, _; (split; [done|]); (split; [lia|]); done.
Qed.

(** A loop that leaves through its end, or through [break], does so with
    the answer to its last request, and that answer is a 200. *)
Lemma attempts_after idx resp0 d w resp w' :
  closes config idx ->
  attempts idx resp0 d w = (LAfter resp, w') ->
  (idx = [] /\ resp = resp0 /\ w' = w)
  \/ (exists req r, resp = Some r /\ StatusCode r = 200
                  /\ last (trace w') = Some (EvRequest req (DoOk r))).
Proof.
  revert resp0 d w. induction idx as [|i idx IH]; intros resp0 d w Hc H; simpl in H.
  { left. by simplify_eq. }
  right.
  destruct (attempt i d w) as [[resp1 d1| resp1 | r | msg] w1] eqn:Ha; simplify_eq.
  - pose proof (attempt_continue_lt _ _ _ _ _ _ Ha) as Hlt.
    destruct idx as [|j idx].
    { exfalso. by apply (Hc i). }
    destruct (IH _ _ _ (closes_tail _ _ Hc ltac:(done)) H) as [[? _]|?]; done.
  - destruct (attempt_break _ _ _ _ _ Ha) as (req & r & -> & Hs & _ & Ht).
    exists req, r. by rewrite Ht, last_snoc.
Qed.

Lemma attempt_trace i d w c w' :
  attempt i d w = (c, w') -> trace w `prefix_of` trace w'.
Proof.
  unfold attempt. intros H.
  repeat case_match; simplify_eq; simpl; rewrite <- ?app_assoc;
    (done || by apply prefix_app_r).
Qed.

Lemma attempts_no_panic idx resp0 d w msg w' :
  attempts idx resp0 d w <> (LPanic msg, w').
Proof.
  revert resp0 d w. induction idx as [|i idx IH]; intros resp0 d w H; simpl in H; [done|].
  destruct (attempt i d w) as [[resp1 d1| resp1 | r | m] w1] eqn:Ha; simplify_eq.
  - by eapply IH.
  - by eapply attempt_no_panic.
Qed.

Lemma succeeded_is_fetch req d :
  succeeded (do_err d) (do_resp d) = Some (is_fetch (EvRequest req d)).
Proof. by destruct d. Qed.

Lemma fetches_emit w e :
  fetches (trace (emit w e)) = (fetches (trace w) + if is_fetch e then 1 else 0)%nat.
Proof. apply count_emit. Qed.

(** One round issues at most one request, and the request is a successful
    fetch exactly when the round leaves by [break]. *)
Lemma attempt_counts i d w c w' :
  attempt i d w = (c, w') ->
  (requests (trace w) <= requests (trace w') <= S (requests (trace w)))%nat
  /\ fetches (trace w')
     = (fetches (trace w) + match c with CBreak _ => 1 | _ => 0 end)%nat.
Proof.
  unfold attempt. intros H.
  destruct (NewRequestErr env (tagsURL registry repo)); [simplify_eq; lia|].
  match type of H with context [match ?a with Ok _ => _ | Err _ => _ end] =>
    destruct a as [header|] end; [|simplify_eq; lia].
  rewrite (succeeded_is_fetch {| req_url := tagsURL registry repo;
                                 req_authorization := header |}) in H.
  match type of H with context [is_fetch ?e] => destruct (is_fetch e) eqn:Hf end.
  - simplify_eq. rewrite requests_emit, fetches_emit, Hf. simpl. lia.
  - repeat case_match; simplify_eq;
      rewrite ?requests_emit, ?fetches_emit, ?Hf; simpl; lia.
Qed.

Lemma attempts_counts idx resp0 d w x w' :
  attempts idx resp0 d w = (x, w') ->
  (requests (trace w) <= requests (trace w') <= requests (trace w) + length idx)%nat
  /\ (fetches (trace w) <= fetches (trace w') <= S (fetches (trace w)))%nat.
Proof.
  revert resp0 d w. induction idx as [|i idx IH]; intros resp0 d w H; simpl in H.
  { simplify_eq. simpl. lia. }
  destruct (attempt i d w) as [c w1] eqn:Ha.
  destruct (attempt_counts _ _ _ _ _ Ha) as [Hr Hf].
  destruct c; simplify_eq; simpl; try lia.
  apply IH in H. lia.
Qed.

(** What a call can do to the map: nothing, or one write, on a miss, of a
    tag list decoded from a 200 answer. *)
Lemma getRemoteTags_cache w r w' :
  getRemoteTags w = (r, w') ->
  cache w' = cache w
  \/ (exists tags req resp,
        r = Returns (Ok tags)
        /\ cache w !! cacheKey = None
        /\ cache w' = <[cacheKey := tags]> (cache w)
        /\ last (trace w') = Some (EvRequest req (DoOk resp))
        /\ StatusCode resp = 200
        /\ DecodeTags env (Body resp) = Ok tags).
Proof.
  unfold getRemoteTags. intros H.
  destruct (cache w !! cacheKey) as [tags|] eqn:Hmiss; [left; by simplify_eq|].
  pose proof (attempts_cache (range (MaxRetries config)) None (RetryDelay config) w) as Hc.
  destruct (attempts _ _ _ w) as [[r1 | msg | [resp|]] w1] eqn:Ha; simpl in Hc;
    simplify_eq; try (by left).
  destruct (DecodeTags env (Body resp)) as [tags|e] eqn:Hd; simplify_eq; [|by left].
  right. destruct (attempts_after _ _ _ _ _ _ closes_range Ha)
    as [(_ & ? & _)|(req & r & ? & Hs & Hl)]; [done|]. simplify_eq.
  exists tags, req, r. simpl. by rewrite Hc.
Qed.

(** A call lengthens the history by at most [MaxRetries] requests, of which
    at most one is a successful fetch. *)
Lemma getRemoteTags_counts w r w' :
  getRemoteTags w = (r, w') ->
  (requests (trace w) <= requests (trace w')
   <= requests (trace w) + Z.to_nat (MaxRetries config))%nat
  /\ (fetches (trace w) <= fetches (trace w') <= S (fetches (trace w)))%nat.
Proof.
  unfold getRemoteTags. intros H.
  destruct (cache w !! cacheKey); [simplify_eq; lia|].
  destruct (attempts _ _ _ w) as [x w1] eqn:Ha.
  apply attempts_counts in Ha. unfold range in Ha.
  rewrite length_fmap, length_seq in Ha.
  repeat case_match; simplify_eq; simpl; done.
Qed.

(** With room for one attempt the call returns; a hit returns anyway. *)
Lemma getRemoteTags_returns w :
  1 <= MaxRetries config \/ is_Some (cache w !! cacheKey) ->
  exists r w', getRemoteTags w = (Returns r, w').
Proof.
  intros [Hm|[tags Hhit]]; [|rewrite (getRemoteTags_hit _ _ Hhit); by eauto].
  unfold getRemoteTags.
  destruct (cache w !! cacheKey); [by eauto|].
  destruct (attempts _ _ _ w) as [[r | msg | resp] w1] eqn:Ha.
  - by eauto.
  - by destruct (attempts_no_panic _ _ _ _ _ _ Ha).
  - destruct (attempts_after _ _ _ _ _ _ closes_range Ha) as [(Hnil & _)|(? & r & -> & _)];
      [by destruct (range_not_nil _ Hm)|].
    destruct (DecodeTags env (Body r)); by eauto.
Qed.

(** C9: a call that does not return a tag list (it returns an error, or it
    panics) leaves the map as it was; and whatever the map holds after a call
    it either held before, or it is the list this call decoded from a 200
    answer and returned. *)
Theorem failed_fetch_keeps_cache w r w' :
  getRemoteTags w = (r, w') ->
  ((forall tags, r <> Returns (Ok tags)) -> cache w' = cache w)
  /\ (forall k tags,
        cache w' !! k = Some tags ->
        cache w !! k = Some tags
        \/ (k = cacheKey /\ r = Returns (Ok tags)
            /\ exists req resp,
                 last (trace w') = Some (EvRequest req (DoOk resp))
                 /\ StatusCode resp = 200
                 /\ DecodeTags env (Body resp) = Ok tags)).
Proof.
  intros H. destruct (getRemoteTags_cache _ _ _ H)
    as [Hc|(tags & req & resp & -> & _ & Hc & Hl & Hs & Hd)].
  - split; [done|]. intros k tags Hk. left. by rewrite <- Hc.
  - split; [intros Hn; by destruct (Hn tags)|].
    intros k tags' Hk. rewrite Hc, lookup_insert in Hk.
    case_decide; simplify_eq; [right|by left].
    split; [done|]. split; [done|]. by exists req, resp.
Qed.

(** C5: on a key that is not in the map, under the [gcloud] scheme and with
    an empty token, the call ends without a request, a retry, a sleep or a
    write to the map.  The request is built before the token is looked at:
    when the configuration allows at least one attempt, the call returns the
    missing-token error if the request can be built, and the error of the
    request's creation if it cannot. *)
Theorem missing_token_fails_at_once w :
  cache w !! cacheKey = None ->
  authMethod = "gcloud" ->
  GCRAccessToken config = "" ->
  (exists r, getRemoteTags w = (r, w))
  /\ (1 <= MaxRetries config ->
      NewRequestErr env (tagsURL registry repo) = None ->
      getRemoteTags w = (Returns (Err "GCR_ACCESS_TOKEN not set in config"), w))
  /\ (1 <= MaxRetries config ->
      forall e,
        NewRequestErr env (tagsURL registry repo) = Some e ->
        getRemoteTags w = (Returns (Err ("error creating HTTP request: " +:+ e)), w)).
Proof.
  intros Hmiss Hauth Htok. unfold getRemoteTags. rewrite Hmiss.
  destruct (range (MaxRetries config)) as [|i idx] eqn:Hr.
  - split; [by eexists|]. split; intros Hm; by destruct (range_not_nil _ Hm).
  - simpl. unfold attempt. rewrite Hauth, Htok. simpl.
    destruct (NewRequestErr env (tagsURL registry repo)) as [e|].
    + split; [by eexists|]. split; [done|]. intros _ e' He. by simplify_eq.
    + split; [by eexists|]. split; [done|]. intros _ e' He. done.
Qed.

(** C10: on a key that is not in the map, the call returns (rather than
    panics) exactly when [MaxRetries >= 1].  With [MaxRetries >= 1] the loop
    reaches the statement after it only with a non-nil [resp]; with
    [MaxRetries <= 0] the loop body never runs and the dereference of the nil
    [resp] panics before any request.  The defaulting step replaces a value
    of 0 by 3 and keeps a negative one. *)
Theorem max_retries_guards_nil_response w :
  cache w !! cacheKey = None ->
  (1 <= MaxRetries config <-> exists r w', getRemoteTags w = (Returns r, w'))
  /\ (1 <= MaxRetries config ->
      forall resp w',
        attempts (range (MaxRetries config)) None (RetryDelay config) w = (LAfter resp, w') ->
        is_Some resp)
  /\ (MaxRetries config <= 0 -> getRemoteTags w = (Panics nil_deref, w))
  /\ (forall c, MaxRetries c = 0 -> MaxRetries (setDefaults c) = 3)
  /\ (forall c, MaxRetries c < 0 -> MaxRetries (setDefaults c) = MaxRetries c).
Proof.
  intros Hmiss.
  assert (Hsome : 1 <= MaxRetries config ->
      forall resp w',
        attempts (range (MaxRetries config)) None (RetryDelay config) w = (LAfter resp, w') ->
        is_Some resp).
  { intros Hm resp w' Ha.
    destruct (attempts_after _ _ _ _ _ _ closes_range Ha) as [(Hnil & _)|(? & r & -> & _)];
      [by destruct (range_not_nil _ Hm) | by eexists]. }
  assert (Hpanic : MaxRetries config <= 0 -> getRemoteTags w = (Panics nil_deref, w)).
  { intros Hm. unfold getRemoteTags. rewrite Hmiss, (range_nil _ Hm). done. }
  split; [split|split; [done|split; [done|split]]].
  - intros Hm. unfold getRemoteTags. rewrite Hmiss.
    destruct (attempts _ _ _ w) as [[r | msg | resp] w1] eqn:Ha.
    + by eexists _, _.
    + by destruct (attempts_no_panic _ _ _ _ _ _ Ha).
    + destruct (Hsome Hm _ _ eq_refl) as [resp' ->].
      destruct (DecodeTags env (Body resp')); by eexists _, _.
  - intros (r & w' & Hr).
    destruct (decide (1 <= MaxRetries config)) as [|Hn]; [done|].
    rewrite Hpanic in Hr by lia. done.
  - intros c Hc. simpl. by rewrite Hc.
  - intros c Hc. simpl. destruct (MaxRetries c =? 0) eqn:E; [lia|done].
Qed.

(** Every [return] inside the loop returns an error. *)
Lemma attempt_return_err i d w r w' :
  attempt i d w = (CReturn r, w') -> exists e, r = Err e.
Proof.
  unfold attempt. intros H. repeat case_match; simplify_eq; by eexists.
Qed.

Lemma attempts_return_err idx resp0 d w r w' :
  attempts idx resp0 d w = (LReturn r, w') -> exists e, r = Err e.
Proof.
  revert resp0 d w. induction idx as [|i idx IH]; intros resp0 d w H; simpl in H; [done|].
  destruct (attempt i d w) as [[resp1 d1| resp1 | r1 | m] w1] eqn:Ha; simplify_eq.
  - by eapply IH.
  - by eapply attempt_return_err.
Qed.

Lemma getRemoteTags_fills w tags w' :
  getRemoteTags w = (Returns (Ok tags), w') -> cache w' !! cacheKey = Some tags.
Proof.
  unfold getRemoteTags. intros H.
  destruct (cache w !! cacheKey) eqn:Hk; [by simplify_eq|].
  destruct (attempts _ _ _ w) as [[r | msg | [resp|]] w1] eqn:Ha; simplify_eq.
  - by destruct (attempts_return_err _ _ _ _ _ _ Ha).
  - destruct (DecodeTags env (Body resp)); simplify_eq. simpl. apply lookup_insert_eq.
Qed.

(** No call removes or replaces an entry of the map. *)
Lemma getRemoteTags_keeps w r w' k tags :
  getRemoteTags w = (r, w') -> cache w !! k = Some tags -> cache w' !! k = Some tags.
Proof.
  intros H Hk. destruct (getRemoteTags_cache _ _ _ H)
    as [->|(tags' & _ & _ & _ & Hmiss & -> & _)]; [done|].
  rewrite lookup_insert_ne; [done|]. intros <-. congruence.
Qed.

Lemma fetchTimes_hit n w tags :
  cache w !! cacheKey = Some tags ->
  fetchTimes config env registry repo authMethod n w = (replicate n (Returns (Ok tags)), w).
Proof.
  intros Hk. induction n as [|n IH]; [done|].
  simpl. by rewrite (getRemoteTags_hit _ _ Hk), IH.
Qed.

End FetcherFacts.

(** C6: when the first of a row of calls for one repository returns a tag
    list, every later call of the row returns the same list and leaves the
    world as the first call left it: all requests of the row are those of
    the first call, at most [MaxRetries] of them, of which at most one (the
    last) is a successful fetch.  Calls for other repositories in between do
    not disturb the entry. *)
Theorem repeated_fetch_hits_cache config env registry repo authMethod w tags w1 :
  getRemoteTags config env registry repo authMethod w = (Returns (Ok tags), w1) ->
  (forall n, fetchTimes config env registry repo authMethod (S n) w
             = (replicate (S n) (Returns (Ok tags)), w1))
  /\ (requests (trace w1) <= requests (trace w) + Z.to_nat (MaxRetries config))%nat
  /\ (fetches (trace w1) <= S (fetches (trace w)))%nat
  /\ (forall registry' repo' authMethod' w2 r w3,
        cache w2 !! (registry +:+ "/" +:+ repo) = Some tags ->
        getRemoteTags config env registry' repo' authMethod' w2 = (r, w3) ->
        cache w3 !! (registry +:+ "/" +:+ repo) = Some tags
        /\ getRemoteTags config env registry repo authMethod w3 = (Returns (Ok tags), w3)).
Proof.
  intros H. pose proof (getRemoteTags_fills _ _ _ _ _ _ _ _ H) as Hk.
  destruct (getRemoteTags_counts _ _ _ _ _ _ _ _ H) as [Hr Hf].
  split; [|split; [lia|split; [lia|]]].
  - intros n. cbn [fetchTimes]. rewrite H.
    by rewrite (fetchTimes_hit _ _ _ _ _ n _ _ Hk).
  - intros registry' repo' authMethod' w2 r w3 Hk2 H2.
    pose proof (getRemoteTags_keeps _ _ _ _ _ _ _ _ _ _ H2 Hk2) as Hk3.
    split; [done|]. by apply getRemoteTags_hit.
Qed.

(** ** The checker *)

Section CheckerFacts.

Variable config : Config.
Variable env : Env.
Variable sv : Semver.

Local Abbreviation checkForUpdates := (checkForUpdates config env sv).
Local Abbreviation checkTask := (checkTask config env sv).
Local Abbreviation runChecks := (runChecks config env sv).
Local Abbreviation fetch img := (getRemoteTags config env (Registry img) (Repo img) "gcloud").

Lemma pickLatest_keeps (Hsv : SemverOrder sv) tags : forall seen latestVer,
  latest_of sv seen latestVer ->
  latest_of sv (seen ++ parsed sv tags) (foldl (pickLatest sv) latestVer tags).
Proof.
  induction tags as [|tag tags IH]; intros seen latestVer Hl; simpl.
  { by rewrite app_nil_r. }
  unfold parsed. simpl. unfold pickLatest at 2.
  destruct (NewVersion sv tag) as [v|e]; [|by apply IH].
  rewrite (cons_middle v seen), app_assoc. apply IH.
  destruct latestVer as [l|]; simpl in *.
  - destruct Hl as [Hin Hmax].
    destruct (GreaterThan sv v l) eqn:Hvl; split.
    + set_solver.
    + intros u [Hu|Hu%list_elem_of_singleton]%elem_of_app.
      * destruct (GreaterThan sv u v) eqn:Huv; [|done].
        rewrite <- (Hmax u Hu). symmetry. by apply (gt_trans _ Hsv u v l).
      * subst. apply (gt_irrefl _ Hsv).
    + set_solver.
    + intros u [Hu|Hu%list_elem_of_singleton]%elem_of_app; [by apply Hmax | by subst].
  - subst. split; [set_solver|].
    intros u Hu%list_elem_of_singleton. subst. apply (gt_irrefl _ Hsv).
Qed.

Lemma pickLatest_maximal (Hsv : SemverOrder sv) tags :
  latest_of sv (parsed sv tags) (foldl (pickLatest sv) None tags).
Proof. by apply (pickLatest_keeps Hsv tags [] None). Qed.

(** Two maximal versions stand in the same relation to any third. *)
Lemma maximal_agree (Hsv : SemverOrder sv) vs m l c :
  maximal sv vs m -> maximal sv vs l ->
  GreaterThan sv m c = GreaterThan sv l c.
Proof.
  intros [Hm Hmm] [Hl Hlm].
  destruct (GreaterThan sv m c) eqn:E1, (GreaterThan sv l c) eqn:E2; try done.
  - destruct (gt_cotrans _ Hsv _ _ l E1) as [H|H]; [|congruence].
    rewrite (Hlm m Hm) in H. done.
  - destruct (gt_cotrans _ Hsv _ _ m E2) as [H|H]; [|congruence].
    rewrite (Hmm l Hl) in H. done.
Qed.

Lemma updateLine_not_empty repo c l : updateLine sv repo c l <> "".
Proof. done. Qed.

(** C3: when the tag list was fetched and the local tag parses, the check
    returns a line and leaves the world as the fetch left it.  Remote tags
    that do not parse play no part.  With no version among them the line is
    empty.  Otherwise there is a maximal version, and for any maximal
    version [m]: if [m] exceeds the current version the line is the text
    [Update available for ], the repository, [: ], the current version,
    [ -> ] and a maximal version, which exceeds the current one; and if [m]
    does not exceed the current version (it is equal or smaller) the line is
    empty.  So the line is the empty one or that text, and never both. *)
Theorem update_iff_maximum_exceeds (Hsv : SemverOrder sv) img w remoteTags w' currentVer :
  fetch img w = (Returns (Ok remoteTags), w') ->
  NewVersion sv (Tag img) = Ok currentVer ->
  exists line,
    checkForUpdates img w = (Returns (Ok line), w')
    /\ (parsed sv remoteTags = [] -> line = "")
    /\ (parsed sv remoteTags <> [] -> exists m, maximal sv (parsed sv remoteTags) m)
    /\ (forall m, maximal sv (parsed sv remoteTags) m ->
          if GreaterThan sv m currentVer
          then exists latest,
                 maximal sv (parsed sv remoteTags) latest
                 /\ GreaterThan sv latest currentVer = true
                 /\ line = "Update available for " +:+ Repo img +:+ ": "
                           +:+ VersionString sv currentVer +:+ " -> "
                           +:+ VersionString sv latest
          else line = "")
    /\ (line = ""
        \/ exists latest,
             maximal sv (parsed sv remoteTags) latest
             /\ GreaterThan sv latest currentVer = true
             /\ line = "Update available for " +:+ Repo img +:+ ": "
                       +:+ VersionString sv currentVer +:+ " -> "
                       +:+ VersionString sv latest)
    /\ (forall latest,
          "Update available for " +:+ Repo img +:+ ": " +:+ VersionString sv currentVer
            +:+ " -> " +:+ VersionString sv latest <> "").
Proof.
  intros Hf Hcur. unfold checkForUpdates. rewrite Hf, Hcur.
  pose proof (pickLatest_maximal Hsv remoteTags) as Hl.
  destruct (foldl (pickLatest sv) None remoteTags) as [l|]; simpl in Hl.
  - assert (parsed sv remoteTags <> []) as Hne.
    { destruct Hl as [Hin _]. intros E. rewrite E in Hin. by apply not_elem_of_nil in Hin. }
    destruct (GreaterThan sv l currentVer) eqn:Hgt; eexists; (split; [done|]);
      (split; [done|]); (split; [by eauto|]); unfold updateLine; split_and!.
    + intros m Hm. rewrite (maximal_agree Hsv _ _ _ _ Hm Hl), Hgt. by eauto.
    + right. by eauto.
    + done.
    + intros m Hm. by rewrite (maximal_agree Hsv _ _ _ _ Hm Hl), Hgt.
    + by left.
    + done.
  - exists "". rewrite Hl. split; [done|]. split; [done|]. split; [done|].
    split_and!; [|by left|done]. intros m [Hm _]. by apply not_elem_of_nil in Hm.
Qed.

Lemma checkForUpdates_hit img w tags :
  cache w !! (Registry img +:+ "/" +:+ Repo img) = Some tags ->
  exists r, checkForUpdates img w = (Returns r, w).
Proof.
  intros Hk. unfold checkForUpdates. rewrite (getRemoteTags_hit _ _ _ _ _ _ _ Hk).
  repeat case_match; by eexists.
Qed.

(** C1: for an image whose key is in the map, [getRemoteTags] returns the
    cached list and changes nothing: no request, no sleep, no tick.  The
    goroutine that runs the check still takes its tick from the rate limiter
    before the lookup: the check as a whole costs exactly one tick, no
    request and no sleep, and does not touch the map. *)
Theorem cached_check_costs_one_tick img w tags :
  cache w !! (Registry img +:+ "/" +:+ Repo img) = Some tags ->
  fetch img w = (Returns (Ok tags), w)
  /\ exists w',
       checkTask img w = (Returns tt, w')
       /\ cache w' = cache w
       /\ requests (trace w') = requests (trace w)
       /\ sleeps (trace w') = sleeps (trace w)
       /\ ticks (trace w') = S (ticks (trace w)).
Proof.
  intros Hk. split; [by apply getRemoteTags_hit|].
  unfold checkTask.
  destruct (checkForUpdates_hit img (emit w EvTick) tags Hk) as [r ->].
  destruct r as [update|e]; [destruct (String.eqb update "")|]; eexists; (split; [done|]);
    rewrite ?requests_emit, ?ticks_emit, ?sleeps_emit; simpl;
    rewrite ?app_nil_r; repeat split; lia.
Qed.

Lemma checkForUpdates_returns img w :
  1 <= MaxRetries config -> exists r w', checkForUpdates img w = (Returns r, w').
Proof.
  intros Hm. unfold checkForUpdates.
  destruct (getRemoteTags_returns config env (Registry img) (Repo img) "gcloud" w
              (or_introl Hm)) as (r & w' & ->).
  repeat case_match; by eauto.
Qed.

Lemma checkTask_returns img w :
  1 <= MaxRetries config -> exists w', checkTask img w = (Returns tt, w').
Proof.
  intros Hm. unfold checkTask.
  destruct (checkForUpdates_returns img (emit w EvTick) Hm) as (r & w' & ->).
  repeat case_match; by eauto.
Qed.

(** With room for one attempt no check panics, and the run gets through
    every image. *)
Lemma runChecks_completes imgs w :
  1 <= MaxRetries config -> exists w', runChecks imgs w = (Returns tt, w').
Proof.
  intros Hm. revert w. induction imgs as [|img imgs IH]; intros w; simpl; [by eauto|].
  destruct (checkTask_returns img w Hm) as (w' & ->). apply IH.
Qed.

(** C8: an image whose local tag does not parse never gets a line.  When
    its tag list is fetched (or cached) the check returns
    [error parsing current version] wrapping the parser's error; when the
    fetch returns an error the check returns that error, wrapped as
    [error getting remote tags], and the tag is not looked at.  In both
    cases the goroutine logs the error under the image's repository and the
    remaining checks run on.  With [MaxRetries >= 1] one of the two cases
    applies, and a run over any list of images that contains this one gets
    through all of them. *)
Theorem unparsable_tag_fails_own_check img w e :
  NewVersion sv (Tag img) = Err e ->
  (forall tags w', fetch img w = (Returns (Ok tags), w') ->
     checkForUpdates img w = (Returns (Err ("error parsing current version: " +:+ e)), w'))
  /\ (forall e' w', fetch img w = (Returns (Err e'), w') ->
       checkForUpdates img w = (Returns (Err ("error getting remote tags: " +:+ e')), w'))
  /\ (forall line w', checkForUpdates img w <> (Returns (Ok line), w'))
  /\ (forall err w' rest,
       checkForUpdates img (emit w EvTick) = (Returns (Err err), w') ->
       checkTask img w = (Returns tt, emit w' (EvLogCheckError (Repo img) err))
       /\ runChecks (img :: rest) w
          = runChecks rest (emit w' (EvLogCheckError (Repo img) err)))
  /\ (1 <= MaxRetries config ->
       (exists err w', checkForUpdates img w = (Returns (Err err), w'))
       /\ forall before rest, exists w',
            runChecks (before ++ img :: rest) w = (Returns tt, w')).
Proof.
  intros Hbad. unfold checkForUpdates. rewrite Hbad.
  split; [by intros tags w' ->|]. split; [by intros e' w' ->|].
  split; [intros line w' H; by repeat case_match|].
  split.
  - intros err w' rest H. cbn [runChecks]. unfold checkTask, checkForUpdates.
    rewrite Hbad. by rewrite H.
  - intros Hm. split; [|intros before rest; by apply runChecks_completes].
    destruct (getRemoteTags_returns config env (Registry img) (Repo img) "gcloud" w
                (or_introl Hm)) as (r & w' & ->).
    destruct r; by eauto.
Qed.

End CheckerFacts.

(** ** Backoff *)

Lemma wrap64_small z : - 2 ^ 63 <= z < 2 ^ 63 -> wrap64 z = z.
Proof. intros H. unfold wrap64. rewrite Z.mod_small; lia. Qed.

(** As long as the doubled delay fits in an [int64], the delays are the
    base delay times 1, 2, 4, ... *)
Lemma backoff_exact d n :
  0 <= d -> d * 2 ^ Z.of_nat (n - 1) < 2 ^ 63 ->
  backoff d n = (fun j => d * 2 ^ Z.of_nat j) <$> seq 0 n.
Proof.
  revert d. induction n as [|n IH]; intros d Hd Hmax; [done|].
  simpl. f_equal; [lia|].
  destruct n as [|n]; [done|].
  replace (S (S n) - 1)%nat with (S n) in Hmax by lia.
  rewrite Nat2Z.inj_succ, Z.pow_succ_r in Hmax by lia.
  assert (0 < 2 ^ Z.of_nat n) by (apply Z.pow_pos_nonneg; lia).
  rewrite wrap64_small by nia.
  rewrite IH, <- fmap_S_seq, <- list_fmap_compose.
  - apply list_fmap_ext. intros _ j _. simpl.
    rewrite Nat2Z.inj_succ, Z.pow_succ_r by lia. lia.
  - lia.
  - replace (S n - 1)%nat with n by lia. lia.
Qed.

Lemma length_backoff d n : length (backoff d n) = n.
Proof. revert d. induction n as [|n IH]; intros d; [done|]. simpl. by rewrite IH. Qed.

Lemma sleeps_retryEvents env req k i d n :
  sleeps (retryEvents env req k i d n) = backoff d n.
Proof.
  revert k i d. induction n as [|n IH]; intros k i d; [done|].
  simpl. by rewrite IH.
Qed.

Lemma requests_retryEvents env req k i d n :
  requests (retryEvents env req k i d n) = S n.
Proof.
  revert k i d. induction n as [|n IH]; intros k i d; [done|].
  change (retryEvents env req k i d (S n))
    with ([EvRequest req (ClientDo env k req); EvLogRetry (i + 1) d (do_err (ClientDo env k req));
           EvSleep d] ++ retryEvents env req (S k) (i + 1) (wrap64 (d * 2)) n).
  unfold requests in *. by rewrite count_app, IH.
Qed.

Lemma fetches_retryEvents env req k i d n :
  (forall m, failed (ClientDo env m req)) ->
  fetches (retryEvents env req k i d n) = 0%nat.
Proof.
  intros Hf. revert k i d. induction n as [|n IH]; intros k i d.
  - simpl. pose proof (Hf k) as Hk. unfold fetches, count. rewrite filter_cons.
    destruct (ClientDo env k req) as [r|]; simpl in *; [|done].
    case_decide; [lia|done].
  - change (retryEvents env req k i d (S n))
      with ([EvRequest req (ClientDo env k req)]
            ++ [EvLogRetry (i + 1) d (do_err (ClientDo env k req)); EvSleep d]
            ++ retryEvents env req (S k) (i + 1) (wrap64 (d * 2)) n).
    unfold fetches in *. rewrite !count_app, IH.
    pose proof (Hf k) as Hk. unfold count. rewrite filter_cons.
    destruct (ClientDo env k req) as [r|]; simpl in *; [|done].
    case_decide; [lia|done].
Qed.

Lemma retryLogs_retryEvents env req k i d n :
  retryLogs (retryEvents env req k i d n) = n.
Proof.
  revert k i d. induction n as [|n IH]; intros k i d; [done|].
  change (retryEvents env req k i d (S n))
    with ([EvRequest req (ClientDo env k req); EvLogRetry (i + 1) d (do_err (ClientDo env k req));
           EvSleep d] ++ retryEvents env req (S k) (i + 1) (wrap64 (d * 2)) n).
  unfold retryLogs in *. by rewrite count_app, IH.
Qed.

Section Retry.

Variable config : Config.
Variable env : Env.
Variables registry repo : string.

Local Abbreviation req := (bearerRequest config env registry repo).

Hypothesis token_set : GCRAccessToken config <> "".
Hypothesis request_builds : NewRequestErr env (tagsURL registry repo) = None.
Hypothesis endpoint_down : forall k, failed (ClientDo env k req).

Lemma attempt_failed i d w :
  let answer := ClientDo env (requests (trace w)) req in
  attempt config env registry repo "gcloud" i d w
  = if i <? MaxRetries config - 1
    then (CContinue (do_resp answer) (wrap64 (d * 2)),
          emit (emit (emit w (EvRequest req answer)) (EvLogRetry (i + 1) d (do_err answer)))
               (EvSleep d))
    else (CReturn (Err (giveUp answer)), emit w (EvRequest req answer)).
Proof.
  intros answer. unfold attempt. rewrite request_builds.
  apply String.eqb_neq in token_set as ->. simpl.
  fold req. fold answer. pose proof (endpoint_down (requests (trace w))) as Hf.
  fold answer in Hf.
  destruct answer as [r|e r]; simpl in *.
  - apply Z.eqb_neq in Hf as ->. done.
  - done.
Qed.

Lemma attempts_failed n : forall a resp d w,
  Z.of_nat a + Z.of_nat (S n) = MaxRetries config ->
  exists w',
    attempts config env registry repo "gcloud" (Z.of_nat <$> seq a (S n)) resp d w
    = (LReturn (Err (giveUp (ClientDo env (requests (trace w) + n) req))), w')
    /\ cache w' = cache w
    /\ trace w' = trace w ++ retryEvents env req (requests (trace w)) (Z.of_nat a) d n.
Proof.
  induction n as [|n IH]; intros a resp d w Hm.
  - simpl. rewrite attempt_failed.
    destruct (Z.of_nat a <? MaxRetries config - 1) eqn:E; [lia|].
    eexists. split; [by rewrite Nat.add_0_r|done].
  - change (Z.of_nat <$> seq a (S (S n)))
      with (Z.of_nat a :: (Z.of_nat <$> seq (S a) (S n))).
    cbn [attempts]. rewrite attempt_failed.
    destruct (Z.of_nat a <? MaxRetries config - 1) eqn:E; [|lia].
    edestruct (IH (S a)) as (w' & -> & Hc & Ht); [lia|].
    exists w'. rewrite Hc, Ht. clear Hc Ht.
    set (answer := ClientDo env (requests (trace w)) req).
    assert (requests (trace (emit (emit (emit w (EvRequest req answer))
                                        (EvLogRetry (Z.of_nat a + 1) d (do_err answer)))
                                  (EvSleep d)))
            = S (requests (trace w))) as ->.
    { unfold requests. rewrite !count_emit. simpl. lia. }
    replace (Z.of_nat (S a)) with (Z.of_nat a + 1) by lia.
    replace (requests (trace w) + S n)%nat with (S (requests (trace w)) + n)%nat by lia.
    split; [done|]. split; [done|].
    simpl. by rewrite <- !app_assoc.
Qed.

(** C2: on a key that is not in the map, with [MaxRetries >= 1], a token, a
    request that can be built and an endpoint whose every answer is an error
    or a status other than 200, the call makes exactly [MaxRetries] attempts,
    that is [MaxRetries - 1] retries: it issues [MaxRetries] requests, logs
    [MaxRetries - 1] retries and sleeps before each of them, first for
    [RetryDelay] and then for twice the previous delay (doubled in [int64];
    exactly [RetryDelay * 2^j] while that fits), and returns
    [max retries exceeded] with the error or status code of the last
    answer.  No request succeeded and the map is untouched. *)
Theorem failing_endpoint_exhausts_retries w :
  cache w !! (registry +:+ "/" +:+ repo) = None ->
  1 <= MaxRetries config ->
  let n := Z.to_nat (MaxRetries config) in
  let k := requests (trace w) in
  exists w',
    getRemoteTags config env registry repo "gcloud" w
    = (Returns (Err (giveUp (ClientDo env (k + n - 1) req))), w')
    /\ trace w' = trace w ++ retryEvents env req k 0 (RetryDelay config) (n - 1)
    /\ requests (trace w') = (k + n)%nat
    /\ retryLogs (trace w') = (retryLogs (trace w) + (n - 1))%nat
    /\ fetches (trace w') = fetches (trace w)
    /\ sleeps (trace w') = sleeps (trace w) ++ backoff (RetryDelay config) (n - 1)
    /\ length (backoff (RetryDelay config) (n - 1)) = (n - 1)%nat
    /\ (0 <= RetryDelay config ->
        RetryDelay config * 2 ^ Z.of_nat (n - 2) < 2 ^ 63 ->
        sleeps (trace w')
        = sleeps (trace w) ++ ((fun j => RetryDelay config * 2 ^ Z.of_nat j) <$> seq 0 (n - 1)))
    /\ cache w' = cache w.
Proof.
  intros Hmiss Hm n k. unfold getRemoteTags. rewrite Hmiss. unfold range. fold n.
  destruct n as [|m] eqn:Hn; [lia|].
  destruct (attempts_failed m 0 None (RetryDelay config) w) as (w' & -> & Hc & Ht); [lia|].
  exists w'. fold k in Ht |- *.
  replace (S m - 1)%nat with m by lia. replace (k + S m - 1)%nat with (k + m)%nat by lia.
  split; [done|]. split; [done|]. rewrite Ht.
  unfold requests, retryLogs at 1, fetches at 1. rewrite !count_app, sleeps_app.
  fold (requests (retryEvents env req k 0 (RetryDelay config) m)).
  fold (retryLogs (retryEvents env req k 0 (RetryDelay config) m)).
  fold (fetches (retryEvents env req k 0 (RetryDelay config) m)).
  rewrite requests_retryEvents, retryLogs_retryEvents, fetches_retryEvents,
    sleeps_retryEvents by done.
  fold k. split; [done|]. split; [done|]. split; [unfold fetches; lia|]. split; [done|].
  split; [|split; [|done]].
  - apply length_backoff.
  - intros Hd Hmax. rewrite backoff_exact; [done..|].
    replace (S m - 2)%nat with (m - 1)%nat in Hmax by lia. done.
Qed.

End Retry.

(** ** Interleaved calls *)

Lemma sum_list_with_insert {A} (f : A -> nat) (l : list A) i x y :
  l !! i = Some x ->
  (sum_list_with f (<[i:=y]> l) + f x = sum_list_with f l + f y)%nat.
Proof.
  revert i. induction l as [|a l IH]; intros [|i] H; simpl in *; simplify_eq; [lia|].
  specialize (IH i H). lia.
Qed.

Section ThreadFacts.

Variable config : Config.
Variable env : Env.

Local Abbreviation thread_step := (thread_step config env).
Local Abbreviation pool_ok := (pool_ok config env).
Local Abbreviation decoded := (decoded config env).

(** Under the [gcloud] scheme a round leaves by [break] with the 200 answer
    to the request for the tags of its own repository. *)
Lemma attempt_break_gcloud registry repo i d w resp w' :
  attempt config env registry repo "gcloud" i d w = (CBreak resp, w') ->
  exists r,
    resp = Some r /\ StatusCode r = 200
    /\ trace w' = trace w ++ [EvRequest (bearerRequest config env registry repo) (DoOk r)].
Proof.
  unfold attempt, succeeded, bearerRequest. simpl. intros Ha.
  repeat case_match; simplify_eq;
    match goal with Hd : do_err ?d = None |- _ => destruct d eqn:?; simpl in *; simplify_eq end;
    eexists; (split; [done|]); (split; [lia|]); done.
Qed.

Lemma decoded_mono t t' registry repo tags :
  t `prefix_of` t' -> decoded t registry repo tags -> decoded t' registry repo tags.
Proof.
  intros Hp (resp & Hin & Hs & Hd). exists resp.
  split; [by eapply elem_of_prefix|done].
Qed.

Lemma thread_ok_mono t t' k : t `prefix_of` t' -> thread_ok config env t k -> thread_ok config env t' k.
Proof.
  intros Hp. destruct k as [registry repo th]. unfold thread_ok.
  destruct th as [| |idx resp d|[r|]|tags|tags|r]; simpl; try done.
  - intros [Hin Hs]. split; [by eapply elem_of_prefix|done].
  - by apply decoded_mono.
  - by apply decoded_mono.
Qed.

Lemma budget_mono (c c' : gmap string (list string)) k :
  (forall key, is_Some (c !! key) -> is_Some (c' !! key)) ->
  (budget c' k <= budget c k)%nat.
Proof.
  intros H. unfold budget.
  destruct (t_at k); try lia;
    (destruct (c !! taskKey k) eqn:E;
      [destruct (H (taskKey k)) as [? ->]; [by rewrite E|lia]
      |destruct (c' !! taskKey k); lia]).
Qed.

Lemma pool_budget_mono (c c' : gmap string (list string)) pool :
  (forall key, is_Some (c !! key) -> is_Some (c' !! key)) ->
  (pool_budget c' pool <= pool_budget c pool)%nat.
Proof.
  intros H. unfold pool_budget. induction pool as [|k pool IH]; simpl; [lia|].
  pose proof (budget_mono c c' k H). lia.
Qed.

(** One step of one call: its stop stays sound, the history only grows,
    a successful fetch is paid from the budget, and the map changes only by
    a write, under the call's own key, of a tag list decoded from an answer
    to the call's own request. *)
Lemma thread_step_inv registry repo th w th' w' :
  thread_ok config env (trace w) (mkTask registry repo th) ->
  thread_step registry repo th w = (th', w') ->
  thread_ok config env (trace w') (mkTask registry repo th')
  /\ trace w `prefix_of` trace w'
  /\ (fetches (trace w') + budget (cache w) (mkTask registry repo th')
      <= fetches (trace w) + budget (cache w) (mkTask registry repo th))%nat
  /\ (cache w' = cache w
      \/ exists tags, decoded (trace w') registry repo tags
                    /\ cache w' = <[registry +:+ "/" +:+ repo := tags]> (cache w)).
Proof.
  assert (Hsame : forall (t : list Event) (m : gmap string (list string)) f b b',
             (b' <= b)%nat ->
             t `prefix_of` t /\ (f + b' <= f + b)%nat
             /\ (m = m \/ exists tags, decoded t registry repo tags
                                    /\ m = <[registry +:+ "/" +:+ repo := tags]> m)).
  { intros. split; [done|]. split; [lia|by left]. }
  unfold thread_ok, budget, taskKey.
  intros Hok H. destruct th as [| |[|i rest] resp d|[r|]|tags|tags|r]; simpl in *.
  - simplify_eq. split; [done|]. apply Hsame. lia.
  - destruct (cache w !! _); simplify_eq; simpl; (split; [|apply Hsame; lia]).
    + done.
    + split; [apply closes_range|done].
  - simplify_eq. destruct Hok as [_ Hr]. rewrite (Hr eq_refl). simpl.
    split; [done|]. apply Hsame. lia.
  - destruct Hok as [Hc _].
    destruct (attempt config env registry repo "gcloud" i d w) as [c w1] eqn:Ha.
    pose proof (attempt_trace _ _ _ _ _ _ _ _ _ _ Ha) as Hp.
    destruct (attempt_counts _ _ _ _ _ _ _ _ _ _ Ha) as [_ Hf].
    pose proof (attempt_cache config env registry repo "gcloud" i d w) as Hk.
    rewrite Ha in Hk. simpl in Hk.
    destruct c as [resp1 d1|resp1|r|msg]; simplify_eq; simpl;
      (split; [|split; [done|split; [lia|by left]]]); try done.
    + apply attempt_continue_lt in Ha.
      destruct rest as [|j rest]; [by destruct (Hc i)|].
      split; [by apply (closes_tail _ i)|done].
    + destruct (attempt_break_gcloud _ _ _ _ _ _ _ Ha) as (r & -> & Hs & Ht).
      split; [|done]. rewrite Ht.
      apply elem_of_app. right. by apply list_elem_of_singleton.
  - destruct Hok as [Hin Hs].
    destruct (DecodeTags env (Body r)) as [tags|e] eqn:Hd; simplify_eq; simpl;
      (split; [|apply Hsame; lia]); [|done].
    by exists r.
  - simplify_eq. simpl. split; [done|]. apply Hsame. lia.
  - simplify_eq. simpl. split; [done|]. apply Hsame. lia.
  - simplify_eq. simpl. split; [done|]. split; [done|]. split; [lia|].
    right. by exists tags.
  - simplify_eq. simpl. split; [done|]. apply Hsame. lia.
Qed.

Lemma pool_inv_spawn keys w : pool_inv config env keys w (spawn keys w).
Proof.
  unfold pool_inv, spawn. simpl. split_and!.
  - apply Forall_fmap, Forall_true. done.
  - apply Forall_fmap, Forall_forall. by intros [registry repo] H.
  - intros k tags Hk. by left.
  - done.
  - apply Nat.add_le_mono_l. unfold pool_budget, uncached.
    induction keys as [|k keys IH]; [done|].
    rewrite fmap_cons, filter_cons. cbn [sum_list_with].
    unfold budget at 1, taskKey. simpl.
    case_decide as Hk; [rewrite Hk; simpl; lia|].
    destruct (cache w !! (k.1 +:+ "/" +:+ k.2)); [lia|done].
Qed.

Lemma pool_step_inv keys w0 i p :
  pool_inv config env keys w0 p -> pool_inv config env keys w0 (pool_step config env i p).
Proof.
  intros Hinv. unfold pool_step.
  destruct (existsb panicked (tasks p)); [done|].
  destruct (race p); [done|].
  destruct (tasks p !! i) as [k|] eqn:Hi; [|done].
  destruct (overlap (tasks p) (t_at k)); [done|].
  destruct Hinv as (Hok & Hkeys & Hs & Hkeep & Hf).
  destruct k as [registry repo th]. simpl.
  destruct (thread_step registry repo th (world p)) as [th' w1] eqn:Hst.
  pose proof (Forall_lookup_1 _ _ _ _ Hok Hi) as Hk.
  pose proof (Forall_lookup_1 _ _ _ _ Hkeys Hi) as Hin. simpl in Hin.
  destruct (thread_step_inv _ _ _ _ _ _ Hk Hst) as (Hth & Hp & Hb & Hc).
  assert (Hgrow : forall key, is_Some (cache (world p) !! key) -> is_Some (cache w1 !! key)).
  { intros key Hkey. destruct Hc as [->|(tags & _ & ->)]; [done|].
    rewrite lookup_insert. by case_decide. }
  unfold pool_inv. simpl. split_and!.
  - apply Forall_insert; [|done].
    eapply Forall_impl; [exact Hok|]. intros k'. by apply thread_ok_mono.
  - by apply Forall_insert.
  - intros key tags Hkey.
    destruct Hc as [Hc|(tags' & Hd & Hc)]; rewrite Hc in Hkey.
    + destruct (Hs _ _ Hkey) as [?|(r1 & r2 & ? & ? & ?)]; [by left|].
      right. exists r1, r2. split_and!; [done..|]. by eapply decoded_mono.
    + rewrite lookup_insert in Hkey. case_decide; simplify_eq.
      { right. by exists registry, repo. }
      destruct (Hs _ _ Hkey) as [?|(r1 & r2 & ? & ? & ?)]; [by left|].
      right. exists r1, r2. split_and!; [done..|]. by eapply decoded_mono.
  - intros key Hkey. by apply Hgrow, Hkeep.
  - pose proof (sum_list_with_insert (budget (cache (world p))) (tasks p) i
                  (mkTask registry repo th) (mkTask registry repo th') Hi) as E.
    pose proof (pool_budget_mono (cache (world p)) (cache w1)
                  (<[i := mkTask registry repo th']> (tasks p)) Hgrow) as Hm.
    unfold pool_budget in *. lia.
Qed.

Lemma pool_run_inv keys w0 sched : forall p,
  pool_inv config env keys w0 p -> pool_inv config env keys w0 (pool_run config env sched p).
Proof.
  induction sched as [|i sched IH]; intros p Hinv; simpl; [done|].
  by apply IH, pool_step_inv.
Qed.

Lemma length_uncached w keys : (length (uncached w keys) <= length keys)%nat.
Proof. apply length_filter. Qed.


End ThreadFacts.

(** ** Image names *)

Lemma append_cons a s t : String a s +:+ t = String a (s +:+ t).
Proof. reflexivity. Qed.

Lemma append_assoc s t u : (s +:+ t) +:+ u = s +:+ (t +:+ u).
Proof.
  induction s as [|a s IH]; [reflexivity|].
  by rewrite !append_cons, IH.
Qed.

Lemma Split_not_nil s sep : Split s sep <> [].
Proof.
  destruct s as [|c s]; simpl; [done|].
  destruct (Ascii.eqb c sep); [done|]. by destruct (Split s sep).
Qed.

Lemma Join_cons x y l sep : Join (x :: y :: l) sep = x +:+ sep +:+ Join (y :: l) sep.
Proof. reflexivity. Qed.

Lemma Join_cons_ne x l sep : l <> [] -> Join (x :: l) sep = x +:+ sep +:+ Join l sep.
Proof. by destruct l. Qed.

(** Joining the pieces with the separator gives the string back. *)
Lemma Join_Split s sep : Join (Split s sep) (String sep "") = s.
Proof.
  induction s as [|c s IH]; [reflexivity|].
  simpl. pose proof (Split_not_nil s sep) as Hne.
  destruct (Ascii.eqb_spec c sep) as [->|Hc].
  - destruct (Split s sep) as [|y l]; [done|].
    rewrite Join_cons, IH. reflexivity.
  - destruct (Split s sep) as [|y l]; [done|].
    destruct l as [|z l].
    + simpl in *. by rewrite IH.
    + rewrite Join_cons in *. by rewrite append_cons, IH.
Qed.

Lemma Join_snoc l x y sep : Join (l ++ [x; y]) sep = Join (l ++ [x]) sep +:+ sep +:+ y.
Proof.
  induction l as [|a l IH]; [reflexivity|].
  rewrite <- !app_comm_cons.
  rewrite !Join_cons_ne by (by destruct l).
  by rewrite IH, !append_assoc.
Qed.

(** A name without a slash is rejected. *)
Lemma parseImageName_bare name :
  Split name slash = [name] -> parseImageName name = Err "invalid image name format".
Proof. unfold parseImageName. by intros ->. Qed.

(** What an accepted name looks like and what is made of it.  [mid] are
    the path segments between the first and the last. *)
Lemma parseImageName_ok name img :
  parseImageName name = Ok img ->
  exists mid nm,
    Split name slash = Registry img :: mid ++ [nm +:+ ":" +:+ Tag img]
    /\ Split (nm +:+ ":" +:+ Tag img) colon = [nm; Tag img]
    /\ Repo img = Join mid "/" +:+ "/" +:+ nm.
Proof.
  unfold parseImageName. intros H.
  destruct (length (Split name slash) <? 2)%nat eqn:Hlen; [done|].
  apply Nat.ltb_ge in Hlen.
  destruct (Split name slash) as [|reg rest]; [simpl in Hlen; lia|].
  destruct (exists_last (l := rest)) as (mid & lastseg & ->).
  { intros ->. simpl in Hlen. lia. }
  replace (length (reg :: mid ++ [lastseg]) - 1)%nat with (S (length mid)) in H
    by (simpl; rewrite length_app; simpl; lia).
  unfold slice in H. simpl in H.
  rewrite list_lookup_middle in H by done. simpl in H.
  replace (length mid - 0)%nat with (length mid) in H by lia.
  rewrite drop_0, take_app_length in H.
  pose proof (Join_Split lastseg colon) as Hj.
  destruct (Split lastseg colon) as [|nm [|tag [|? ?]]] eqn:Hs; simpl in H; try done.
  simplify_eq. simpl. exists mid, nm.
  change (Join [nm; tag] (String colon "")) with (nm +:+ ":" +:+ tag) in Hs.
  done.
Qed.

(** X2: with a segment between the first and the last, the three fields spell
    the name; without one, the repository is the last name with a slash in
    front of it. *)
Lemma parseImageName_fields name img :
  parseImageName name = Ok img ->
  ((3 <= length (Split name slash))%nat ->
     name = Registry img +:+ "/" +:+ Repo img +:+ ":" +:+ Tag img)
  /\ (length (Split name slash) = 2%nat ->
     exists nm, Repo img = "/" +:+ nm
                /\ name = Registry img +:+ "/" +:+ nm +:+ ":" +:+ Tag img).
Proof.
  intros H. destruct (parseImageName_ok _ _ H) as (mid & nm & Hs & _ & Hr).
  pose proof (Join_Split name slash) as Hj. rewrite Hs in Hj |- *.
  change (String slash "") with "/" in Hj.
  split.
  - intros Hlen. destruct mid as [|m mid _] using rev_ind.
    { simpl in Hlen. lia. }
    rewrite <- Hj, Hr. rewrite <- app_assoc. simpl ((_ ++ _)%list).
    rewrite Join_cons_ne by (by destruct mid).
    by rewrite Join_snoc, !append_assoc.
  - intros Hlen. destruct mid as [|m mid]; [|simpl in Hlen; rewrite length_app in Hlen; simpl in Hlen; lia].
    exists nm. split; [done|]. by rewrite <- Hj.
Qed.

Lemma getLocalImages_loop_spec lines :
  getLocalImages_loop lines
  = (omap (fun line => match parseImageName line with Ok img => Some img | Err _ => None end)
       lines,
     omap (fun line => match parseImageName line with
                       | Ok _ => None
                       | Err e => Some (line, e)
                       end) lines).
Proof.
  induction lines as [|line lines IH]; [done|].
  simpl. rewrite IH. by destruct (parseImageName line).
Qed.

(** C7: on a name of two path segments the repository comes out with a
    slash in front: for [gcr.io/nginx:1.25] it is [/nginx], where the text
    between the first segment and the tag is [nginx]. *)
Theorem two_segment_name_gets_leading_slash :
  parseImageName "gcr.io/nginx:1.25"
  = Ok {| Registry := "gcr.io"; Repo := "/nginx"; Tag := "1.25" |}.
Proof. reflexivity. Qed.

(** ** The example implementation of [semver] is an order *)

Lemma plain_order : SemverOrder PlainSemver.impl.
Proof.
  split.
  - intros [[a b] c]. simpl. unfold PlainSemver.gt.
    rewrite !Nat.ltb_irrefl, !Nat.eqb_refl. reflexivity.
  - intros [[a1 b1] c1] [[a2 b2] c2] [[a3 b3] c3]. simpl. unfold PlainSemver.gt.
    rewrite !orb_true_iff, !andb_true_iff, !orb_true_iff, !andb_true_iff,
      !Nat.ltb_lt, !Nat.eqb_eq. lia.
  - intros [[a1 b1] c1] [[a2 b2] c2] [[a3 b3] c3]. simpl. unfold PlainSemver.gt.
    rewrite !orb_true_iff, !andb_true_iff, !orb_true_iff, !andb_true_iff,
      !Nat.ltb_lt, !Nat.eqb_eq. lia.
Qed.

(** ** The theorems on concrete runs *)

Lemma cached_check_costs_one_tick_witness :
  cache Examples.warm !! "gcr.io/proj/img" = Some ["1.0.0"; "1.0.1"; "abc"]
  /\ exists w',
       checkTask Examples.defaults Examples.up PlainSemver.impl (Examples.img "1.0.0")
         Examples.warm = (Returns tt, w')
       /\ cache w' = cache Examples.warm
       /\ requests (trace w') = requests (trace Examples.warm)
       /\ sleeps (trace w') = sleeps (trace Examples.warm)
       /\ ticks (trace w') = S (ticks (trace Examples.warm)).
Proof.
  split; [reflexivity|].
  apply (cached_check_costs_one_tick Examples.defaults Examples.up PlainSemver.impl
           (Examples.img "1.0.0") Examples.warm ["1.0.0"; "1.0.1"; "abc"]).
  reflexivity.
Defined.

(** C1 as stated fails: the image's key is in the map, and its check still
    takes a tick from the rate limiter. *)
Lemma cached_check_still_ticks :
  cache Examples.warm !! "gcr.io/proj/img" = Some ["1.0.0"; "1.0.1"; "abc"]
  /\ ticks (trace Examples.warm) = 0%nat
  /\ ticks (trace (checkTask Examples.defaults Examples.up PlainSemver.impl
                     (Examples.img "1.0.0") Examples.warm).2) = 1%nat
  /\ ~ (ticks (trace (checkTask Examples.defaults Examples.up PlainSemver.impl
                        (Examples.img "1.0.0") Examples.warm).2)
        = ticks (trace Examples.warm)).
Proof. vm_compute. repeat split; discriminate. Qed.

Lemma failing_endpoint_exhausts_retries_witness :
  exists w',
    getRemoteTags Examples.defaults Examples.down "gcr.io" "proj/img" "gcloud" Examples.fresh
    = (Returns (Err "max retries exceeded: error fetching tags: connection refused"), w')
    /\ requests (trace w') = 3%nat
    /\ retryLogs (trace w') = 2%nat
    /\ sleeps (trace w') = [1000000000; 2000000000].
Proof.
  destruct (failing_endpoint_exhausts_retries Examples.defaults Examples.down
              "gcr.io" "proj/img"
              ltac:(discriminate) eq_refl (fun _ => I) Examples.fresh eq_refl ltac:(vm_compute; discriminate))
    as (w' & H & _ & Hr & Hl & _ & Hs & _).
  exists w'. split; [exact H|]. split; [exact Hr|]. split; [exact Hl|exact Hs].
Defined.

(** C2 as stated fails.  With [MaxRetries = 3] and the registry down, the
    call gives up after three requests, of which two are retries, and it
    has slept twice, for one and for two seconds; with [MaxRetries = 1] it
    gives up after its first request and never retries.  With the registry
    down and no token, or a URL the request cannot be built from, the call
    sends nothing and fails with another error. *)
Lemma three_attempts_are_two_retries :
  let ran :=
    getRemoteTags Examples.defaults Examples.down "gcr.io" "proj/img" "gcloud"
      Examples.fresh in
  let once :=
    getRemoteTags MoreExamples.single_attempt Examples.down "gcr.io" "proj/img" "gcloud"
      Examples.fresh in
  let no_token :=
    getRemoteTags Examples.no_token Examples.down "gcr.io" "proj/img" "gcloud"
      Examples.fresh in
  let no_request :=
    getRemoteTags Examples.defaults MoreExamples.bad_url MoreExamples.local_registry
      "proj/img" "gcloud" Examples.fresh in
  (MaxRetries Examples.defaults = 3
   /\ RetryDelay Examples.defaults = 1000000000
   /\ ran.1 = Returns (Err "max retries exceeded: error fetching tags: connection refused")
   /\ requests (trace ran.2) = 3%nat
   /\ retryLogs (trace ran.2) = 2%nat
   /\ sleeps (trace ran.2) = [1000000000; 2000000000]
   /\ retryLogs (trace ran.2) <> 3%nat
   /\ sleeps (trace ran.2) <> [1000000000; 2000000000; 4000000000])
  /\ (MaxRetries MoreExamples.single_attempt = 1
      /\ once.1 = Returns (Err "max retries exceeded: error fetching tags: connection refused")
      /\ requests (trace once.2) = 1%nat
      /\ retryLogs (trace once.2) = 0%nat
      /\ sleeps (trace once.2) = []
      /\ retryLogs (trace once.2) <> 1%nat)
  /\ (no_token = (Returns (Err "GCR_ACCESS_TOKEN not set in config"), Examples.fresh)
      /\ no_request
         = (Returns (Err ("error creating HTTP request: "
                          +:+ "first path segment in URL cannot contain colon")),
            Examples.fresh)).
Proof. vm_compute. split_and!; (reflexivity || discriminate). Qed.

Lemma update_iff_maximum_exceeds_witness :
  let fetched :=
    getRemoteTags Examples.defaults Examples.up "gcr.io" "proj/img" "gcloud" Examples.fresh in
  fetched.1 = Returns (Ok ["1.0.0"; "1.0.1"; "abc"])
  /\ NewVersion PlainSemver.impl "1.0.0" = Ok (1, 0, 0)%nat
  /\ checkForUpdates Examples.defaults Examples.up PlainSemver.impl (Examples.img "1.0.0")
       Examples.fresh
     = (Returns (Ok "Update available for proj/img: 1.0.0 -> 1.0.1"), fetched.2).
Proof.
  intros fetched. split; [reflexivity|]. split; [reflexivity|].
  destruct (update_iff_maximum_exceeds Examples.defaults Examples.up PlainSemver.impl
              plain_order (Examples.img "1.0.0") Examples.fresh
              ["1.0.0"; "1.0.1"; "abc"] fetched.2 (1, 0, 0)%nat eq_refl eq_refl)
    as (line & H & _ & _ & Hmax & _).
  assert (Hp : parsed PlainSemver.impl ["1.0.0"; "1.0.1"; "abc"]
               = [(1, 0, 0)%nat; (1, 0, 1)%nat]) by reflexivity.
  rewrite Hp in Hmax.
  assert (Hm : maximal PlainSemver.impl [(1, 0, 0)%nat; (1, 0, 1)%nat] (1, 0, 1)%nat).
  { split; [apply elem_of_cons; right; apply elem_of_cons; by left|].
    intros v [->|[->|Hv%elem_of_nil]%elem_of_cons]%elem_of_cons; [reflexivity..|done]. }
  destruct (Hmax _ Hm) as (latest & [Hin Hall] & _ & Hline).
  apply elem_of_cons in Hin as [->|[->|Hin%elem_of_nil]%elem_of_cons]; [|by rewrite Hline in H|done].
  specialize (Hall (1, 0, 1)%nat (proj1 Hm)). discriminate Hall.
Defined.



(** A lookup that begins while another goroutine writes the map is caught
    by the runtime. *)
Example lookup_during_write_is_fatal :
  let p := pool_run Examples.defaults Examples.up [0; 0; 0; 0; 0; 1]%nat
             (spawn [("gcr.io", "proj/img"); ("gcr.io", "proj/tool")] Examples.fresh) in
  t_at <$> tasks p = [InStore ["1.0.0"; "1.0.1"; "abc"]; AtLookup]
  /\ race p = Some (FatalError "concurrent map read and map write").
Proof. vm_compute. split; reflexivity. Qed.

Lemma missing_token_fails_at_once_witness :
  cache Examples.fresh !! "gcr.io/proj/img" = None
  /\ GCRAccessToken Examples.no_token = ""
  /\ getRemoteTags Examples.no_token Examples.up "gcr.io" "proj/img" "gcloud" Examples.fresh
     = (Returns (Err "GCR_ACCESS_TOKEN not set in config"), Examples.fresh)
  /\ getRemoteTags Examples.no_token MoreExamples.bad_url MoreExamples.local_registry
       "proj/img" "gcloud" Examples.fresh
     = (Returns (Err ("error creating HTTP request: "
                      +:+ "first path segment in URL cannot contain colon")), Examples.fresh).
Proof.
  split; [reflexivity|]. split; [reflexivity|]. split.
  - destruct (missing_token_fails_at_once Examples.no_token Examples.up "gcr.io" "proj/img"
                "gcloud" Examples.fresh eq_refl eq_refl eq_refl) as (_ & H & _).
    apply H; [vm_compute; discriminate|reflexivity].
  - destruct (missing_token_fails_at_once Examples.no_token MoreExamples.bad_url
                MoreExamples.local_registry "proj/img" "gcloud" Examples.fresh
                eq_refl eq_refl eq_refl) as (_ & _ & H).
    apply H; [vm_compute; discriminate|reflexivity].
Defined.

(** C5 as stated fails: the token is empty and the key is not in the map,
    but the registry is given by address and port, the request cannot be
    built, and the call returns the error of the request's creation, not
    the missing-token error. *)
Lemma missing_token_behind_bad_url :
  let ran :=
    getRemoteTags Examples.no_token MoreExamples.bad_url MoreExamples.local_registry
      "proj/img" "gcloud" Examples.fresh in
  GCRAccessToken Examples.no_token = ""
  /\ MaxRetries Examples.no_token = 3
  /\ cache Examples.fresh !! (MoreExamples.local_registry +:+ "/" +:+ "proj/img") = None
  /\ ran.1 = Returns (Err ("error creating HTTP request: "
                           +:+ "first path segment in URL cannot contain colon"))
  /\ ran.1 <> Returns (Err "GCR_ACCESS_TOKEN not set in config")
  /\ ran.2 = Examples.fresh.
Proof. vm_compute. split_and!; (reflexivity || discriminate). Qed.

Lemma repeated_fetch_hits_cache_witness :
  let first :=
    getRemoteTags Examples.defaults Examples.flaky "gcr.io" "proj/img" "gcloud"
      Examples.fresh in
  first.1 = Returns (Ok ["1.0.0"; "1.0.1"; "abc"])
  /\ fetchTimes Examples.defaults Examples.flaky "gcr.io" "proj/img" "gcloud" 3 Examples.fresh
     = (replicate 3 (Returns (Ok ["1.0.0"; "1.0.1"; "abc"])), first.2)
  /\ (fetches (trace first.2) <= S (fetches (trace Examples.fresh)))%nat.
Proof.
  intros first. split; [reflexivity|].
  destruct (repeated_fetch_hits_cache Examples.defaults Examples.flaky "gcr.io" "proj/img"
              "gcloud" Examples.fresh ["1.0.0"; "1.0.1"; "abc"] first.2 eq_refl)
    as (Hn & _ & Hf & _).
  split; [exact (Hn 2%nat)|exact Hf].
Defined.

(** C6 as stated fails: the first call succeeds on its second attempt, and
    the row of three calls has issued two requests. *)
Lemma first_call_may_take_two_requests :
  let ran := fetchTimes Examples.defaults Examples.flaky "gcr.io" "proj/img" "gcloud" 3
               Examples.fresh in
  ran.1 = replicate 3 (Returns (Ok ["1.0.0"; "1.0.1"; "abc"]))
  /\ requests (trace ran.2) = 2%nat
  /\ ~ (requests (trace ran.2) <= 1)%nat.
Proof. vm_compute. repeat split. intros H. inversion H as [|? H1]. inversion H1. Qed.

Lemma unparsable_tag_fails_own_check_witness :
  NewVersion PlainSemver.impl (Tag (Examples.img "latest")) = Err "Invalid Semantic Version"
  /\ forall tags w',
       getRemoteTags Examples.defaults Examples.up "gcr.io" "proj/img" "gcloud" Examples.fresh
       = (Returns (Ok tags), w') ->
       checkForUpdates Examples.defaults Examples.up PlainSemver.impl (Examples.img "latest")
         Examples.fresh
       = (Returns (Err "error parsing current version: Invalid Semantic Version"), w').
Proof.
  split; [reflexivity|].
  apply (unparsable_tag_fails_own_check Examples.defaults Examples.up PlainSemver.impl
           (Examples.img "latest") Examples.fresh "Invalid Semantic Version" eq_refl).
Defined.

(** C8 as stated fails: the local tag does not parse, the registry is
    down, and the check fails with the error of the fetch. *)
Lemma unparsable_tag_with_registry_down :
  NewVersion PlainSemver.impl (Tag (Examples.img "latest")) = Err "Invalid Semantic Version"
  /\ (checkForUpdates Examples.defaults Examples.down PlainSemver.impl (Examples.img "latest")
        Examples.fresh).1
     = Returns (Err ("error getting remote tags: max retries exceeded: "
                     +:+ "error fetching tags: connection refused"))
  /\ (checkForUpdates Examples.defaults Examples.down PlainSemver.impl (Examples.img "latest")
        Examples.fresh).1
     <> Returns (Err "error parsing current version: Invalid Semantic Version").
Proof. vm_compute. repeat split. discriminate. Qed.

Lemma failed_fetch_keeps_cache_witness :
  let ran :=
    getRemoteTags Examples.defaults Examples.garbled "gcr.io" "proj/img" "gcloud"
      Examples.fresh in
  ran.1 = Returns (Err "error decoding JSON response: invalid character")
  /\ cache ran.2 = cache Examples.fresh.
Proof.
  intros ran. split; [reflexivity|].
  apply (failed_fetch_keeps_cache Examples.defaults Examples.garbled "gcr.io" "proj/img"
           "gcloud" Examples.fresh ran.1 ran.2 eq_refl).
  intros tags. vm_compute. discriminate.
Defined.

Lemma max_retries_guards_nil_response_witness :
  cache Examples.fresh !! "gcr.io/proj/img" = None
  /\ (exists r w',
        getRemoteTags Examples.defaults Examples.up "gcr.io" "proj/img" "gcloud" Examples.fresh
        = (Returns r, w'))
  /\ getRemoteTags Examples.negative_retries Examples.up "gcr.io" "proj/img" "gcloud"
       Examples.fresh
     = (Panics nil_deref, Examples.fresh).
Proof.
  split; [reflexivity|]. split.
  - apply (max_retries_guards_nil_response Examples.defaults Examples.up "gcr.io" "proj/img"
             "gcloud" Examples.fresh eq_refl).
    vm_compute. discriminate.
  - apply (max_retries_guards_nil_response Examples.negative_retries Examples.up "gcr.io"
             "proj/img" "gcloud" Examples.fresh eq_refl).
    vm_compute. discriminate.
Defined.

(** * Further properties *)

(** ** Which names [parseImageName] accepts *)

Lemma length_Split s sep : length (Split s sep) = S (occurrences sep s).
Proof.
  induction s as [|c s IH]; [done|].
  simpl. pose proof (Split_not_nil s sep) as Hne.
  destruct (Ascii.eqb c sep); simpl; [by rewrite IH|].
  destruct (Split s sep) as [|seg segs]; [done|]. simpl in *. lia.
Qed.

Lemma occurrences_app c s t :
  occurrences c (s +:+ t) = (occurrences c s + occurrences c t)%nat.
Proof.
  induction s as [|a s IH]; [done|].
  rewrite append_cons. simpl. rewrite IH. lia.
Qed.

(** No piece of a split contains the separator. *)
Lemma Split_no_sep s sep seg : seg ∈ Split s sep -> occurrences sep seg = 0%nat.
Proof.
  revert seg. induction s as [|c s IH]; intros seg Hin; simpl in Hin.
  { apply list_elem_of_singleton in Hin. by subst. }
  pose proof (Split_not_nil s sep) as Hne.
  destruct (Ascii.eqb c sep) eqn:Hc.
  - apply elem_of_cons in Hin as [->|Hin]; [done|by apply IH].
  - destruct (Split s sep) as [|y l]; [done|].
    apply elem_of_cons in Hin as [->|Hin].
    + simpl. rewrite Hc. apply IH. by left.
    + apply IH. by right.
Qed.

Lemma parts_last (parts : list string) :
  default "" (parts !! (length parts - 1)%nat) = default "" (last parts).
Proof. by rewrite last_lookup, Nat.sub_1_r. Qed.

(** X1: a name is rejected as [invalid image name format] exactly when it
    has no slash, and as [invalid tag format] exactly when it has a slash
    and the text after the last slash does not hold exactly one colon; all
    other names are accepted. *)
Theorem parseImageName_accepts name :
  (parseImageName name = Err "invalid image name format" <-> occurrences slash name = 0%nat)
  /\ (parseImageName name = Err "invalid tag format"
      <-> (1 <= occurrences slash name)%nat /\ occurrences colon (lastSegment name) <> 1%nat)
  /\ ((exists img, parseImageName name = Ok img)
      <-> (1 <= occurrences slash name)%nat /\ occurrences colon (lastSegment name) = 1%nat).
Proof.
  unfold parseImageName, lastSegment. rewrite parts_last, !length_Split.
  destruct (occurrences slash name) as [|n] eqn:Hn; simpl.
  { split; [done|]. split; [split; [done|lia]|]. split; [by intros [? ?]|lia]. }
  destruct (occurrences colon (default "" (last (Split name slash)))) as [|[|m]] eqn:Hm; simpl.
  - split; [done|]. split; [split; [lia|done]|]. split; [by intros [? ?]|lia].
  - split; [done|]. split; [split; [done|lia]|]. split; [intros _; lia|by eauto].
  - split; [done|]. split; [split; [lia|done]|]. split; [by intros [? ?]|lia].
Qed.

Lemma fields_separators name img :
  parseImageName name = Ok img ->
  occurrences slash (Registry img) = 0%nat
  /\ occurrences slash (Tag img) = 0%nat
  /\ occurrences colon (Tag img) = 0%nat
  /\ (1 <= occurrences slash (Repo img))%nat.
Proof.
  intros H. destruct (parseImageName_ok _ _ H) as (mid & nm & Hs & Hc & Hr).
  assert (occurrences slash (nm +:+ ":" +:+ Tag img) = 0%nat) as Hlast.
  { apply (Split_no_sep name slash). rewrite Hs. set_solver. }
  rewrite !occurrences_app in Hlast.
  split; [apply (Split_no_sep name slash); rewrite Hs; by left|].
  split; [lia|]. split.
  - apply (Split_no_sep (nm +:+ ":" +:+ Tag img) colon). rewrite Hc. set_solver.
  - rewrite Hr, !occurrences_app. simpl. lia.
Qed.

(** X3: in an accepted name's fields, the registry holds no slash, the tag
    holds neither a slash nor a colon, and the repository always holds a
    slash. *)
Theorem parseImageName_separators name img :
  parseImageName name = Ok img ->
  occurrences slash (Registry img) = 0%nat
  /\ occurrences slash (Tag img) = 0%nat
  /\ occurrences colon (Tag img) = 0%nat
  /\ (1 <= occurrences slash (Repo img))%nat.
Proof. apply fields_separators. Qed.

Lemma key_split r1 p1 r2 p2 :
  occurrences slash r1 = 0%nat -> occurrences slash r2 = 0%nat ->
  r1 +:+ "/" +:+ p1 = r2 +:+ "/" +:+ p2 -> r1 = r2 /\ p1 = p2.
Proof.
  revert r2. induction r1 as [|a r1 IH]; intros [|b r2] H1 H2 H; simpl in *.
  - by simplify_eq.
  - rewrite append_cons in H. injection H as <- _.
    change (Ascii.eqb "/" slash) with true in H2. done.
  - rewrite append_cons in H. injection H as -> _.
    change (Ascii.eqb "/" slash) with true in H1. done.
  - rewrite !append_cons in H. injection H as -> H.
    destruct (Ascii.eqb b slash); [done|].
    destruct (IH r2 H1 H2 H) as [-> ->]. done.
Qed.

(** X4: two accepted names share a cache key, and with it a URL, only when
    they have the same registry and the same repository. *)
Theorem parsed_images_share_key_only_with_same_repo n1 n2 i1 i2 :
  parseImageName n1 = Ok i1 -> parseImageName n2 = Ok i2 ->
  Registry i1 +:+ "/" +:+ Repo i1 = Registry i2 +:+ "/" +:+ Repo i2 ->
  Registry i1 = Registry i2 /\ Repo i1 = Repo i2
  /\ tagsURL (Registry i1) (Repo i1) = tagsURL (Registry i2) (Repo i2).
Proof.
  intros H1 H2 Hk.
  destruct (fields_separators _ _ H1) as (Hr1 & _).
  destruct (fields_separators _ _ H2) as (Hr2 & _).
  destruct (key_split _ _ _ _ Hr1 Hr2 Hk) as [-> ->]. done.
Qed.

(** ** [getLocalImages] *)

Lemma getLocalImages_loop_length lines :
  (length (getLocalImages_loop lines).1 + length (getLocalImages_loop lines).2
   = length lines)%nat.
Proof.
  induction lines as [|line lines IH]; [done|].
  simpl. destruct (getLocalImages_loop lines) as [images logged].
  destruct (parseImageName line); simpl in *; lia.
Qed.

(** X5: when the command succeeds, [getLocalImages] returns no error, and
    every line of the trimmed output ends up exactly once, in order, either
    among the images (as [parseImageName] reads it) or among the logged
    lines (with the error of [parseImageName]); the two lists together are
    one longer than the output has line breaks. *)
Theorem getLocalImages_sorts_every_line env out :
  let lines := Split (TrimSpace env out) newline in
  exists images logged,
    getLocalImages env (Ok out) = (Ok images, logged)
    /\ images = omap (fun line => match parseImageName line with
                                  | Ok img => Some img
                                  | Err _ => None
                                  end) lines
    /\ logged = omap (fun line => match parseImageName line with
                                  | Ok _ => None
                                  | Err e => Some (line, e)
                                  end) lines
    /\ (length images + length logged
        = S (occurrences newline (TrimSpace env out)))%nat.
Proof.
  intros lines. unfold getLocalImages. fold lines.
  pose proof (getLocalImages_loop_spec lines) as Hs.
  pose proof (getLocalImages_loop_length lines) as Hl.
  destruct (getLocalImages_loop lines) as [images logged]. simplify_eq.
  eexists _, _. split; [done|]. split; [done|]. split; [done|].
  simpl in Hl. rewrite Hl. apply length_Split.
Qed.

(** X6: when the command prints nothing but white space, no image is
    returned and one error is logged, for the empty line. *)
Theorem getLocalImages_empty_output env out :
  TrimSpace env out = "" ->
  getLocalImages env (Ok out) = (Ok [], [("", "invalid image name format")]).
Proof. intros H. unfold getLocalImages. by rewrite H. Qed.

(** ** [loadConfig] *)

(** X7: a configuration that [loadConfig] returns has no rate limit, retry
    count or retry delay equal to zero, and running the defaults over it
    again changes nothing.  It is what viper unmarshalled, with 100ms, 3
    and 1s in place of the zeros; every other value, negative ones
    included, and the token are kept. *)
Theorem loadConfig_fills_zeros v c :
  loadConfig v = Ok c ->
  RateLimit c <> 0 /\ MaxRetries c <> 0 /\ RetryDelay c <> 0
  /\ setDefaults c = c
  /\ exists c0,
       ReadInConfig v = None /\ Unmarshal v = Ok c0
       /\ GCRAccessToken c = GCRAccessToken c0
       /\ RateLimit c = (if RateLimit c0 =? 0 then 100000000 else RateLimit c0)
       /\ MaxRetries c = (if MaxRetries c0 =? 0 then 3 else MaxRetries c0)
       /\ RetryDelay c = (if RetryDelay c0 =? 0 then 1000000000 else RetryDelay c0).
Proof.
  unfold loadConfig. intros H.
  destruct (ReadInConfig v) as [[?|?]|] eqn:Hr; try done.
  destruct (Unmarshal v) as [c0|] eqn:Hu; [|done]. simplify_eq.
  unfold setDefaults. simpl.
  change (Second / 10) with 100000000. change Second with 1000000000.
  destruct (RateLimit c0 =? 0) eqn:E1, (MaxRetries c0 =? 0) eqn:E2,
    (RetryDelay c0 =? 0) eqn:E3; simpl; rewrite ?E1, ?E2, ?E3;
    (split; [lia|]); (split; [lia|]); (split; [lia|]);
    (split; [simpl; rewrite ?E1, ?E2, ?E3; reflexivity|]);
    exists c0; simpl; rewrite ?E1, ?E2, ?E3; repeat split; done.
Qed.

(** ** The history of a call *)

Lemma count_singleton p e : count p [e] = if p e then 1%nat else 0%nat.
Proof. unfold count. rewrite filter_cons, filter_nil. by destruct (p e). Qed.

Lemma world_eq (w w' : World) : cache w' = cache w -> trace w' = trace w -> w' = w.
Proof. destruct w, w'. simpl. by intros -> ->. Qed.

Lemma is_fetch_failed req d : is_fetch (EvRequest req d) = false <-> failed d.
Proof.
  destruct d as [r|]; simpl; [|done].
  destruct (Z.eqb_spec (StatusCode r) 200); split; (done || lia).
Qed.

Section History.

Variable config : Config.
Variable env : Env.
Variables registry repo authMethod : string.

Local Abbreviation req := (requestFor config env registry repo authMethod).
Local Abbreviation attempt := (attempt config env registry repo authMethod).
Local Abbreviation attempts := (attempts config env registry repo authMethod).
Local Abbreviation getRemoteTags := (getRemoteTags config env registry repo authMethod).

(** A round that gets as far as the request. *)
Lemma attempt_passes i d w :
  passes config env registry repo authMethod ->
  let answer := ClientDo env (requests (trace w)) req in
  attempt i d w
  = if is_fetch (EvRequest req answer)
    then (CBreak (do_resp answer), emit w (EvRequest req answer))
    else if i <? MaxRetries config - 1
    then (CContinue (do_resp answer) (wrap64 (d * 2)),
          emit (emit (emit w (EvRequest req answer)) (EvLogRetry (i + 1) d (do_err answer)))
               (EvSleep d))
    else (CReturn (Err (giveUp answer)), emit w (EvRequest req answer)).
Proof.
  intros [Hb Ht] answer. unfold attempt. rewrite Hb.
  assert ((if String.eqb authMethod "gcloud"
           then if String.eqb (GCRAccessToken config) ""
                then Err "GCR_ACCESS_TOKEN not set in config"
                else Ok (Some ("Bearer " +:+ TrimSpace env (GCRAccessToken config)))
           else Ok None) = Ok (req_authorization req)) as ->.
  { unfold requestFor. simpl. destruct (String.eqb_spec authMethod "gcloud") as [E|]; [|done].
    apply Ht, String.eqb_neq in E. by rewrite E. }
  change {| req_url := tagsURL registry repo; req_authorization := req_authorization req |}
    with req.
  fold answer. rewrite (succeeded_is_fetch req answer).
  destruct (is_fetch (EvRequest req answer)) eqn:Hf; [done|].
  destruct (i <? MaxRetries config - 1); [done|].
  destruct answer as [r|e r]; simpl in *; done.
Qed.

Lemma attempts_cons i rest resp d w :
  attempts (i :: rest) resp d w
  = match attempt i d w with
    | (CContinue resp retryDelay, w) => attempts rest resp retryDelay w
    | (CBreak resp, w) => (LAfter resp, w)
    | (CReturn r, w) => (LReturn r, w)
    | (CPanic msg, w) => (LPanic msg, w)
    end.
Proof. reflexivity. Qed.

Lemma attempts_history len : forall a resp d w x w',
  passes config env registry repo authMethod ->
  Z.of_nat a + Z.of_nat (S len) = MaxRetries config ->
  attempts (Z.of_nat <$> seq a (S len)) resp d w = (x, w') ->
  exists n,
    (n <= len)%nat
    /\ cache w' = cache w
    /\ trace w' = trace w ++ rounds env req (requests (trace w)) (Z.of_nat a) d n
                    ++ [EvRequest req (ClientDo env (requests (trace w) + n) req)]
    /\ (forall j, (j < n)%nat -> failed (ClientDo env (requests (trace w) + j) req))
    /\ ((is_fetch (EvRequest req (ClientDo env (requests (trace w) + n) req)) = true
         /\ x = LAfter (do_resp (ClientDo env (requests (trace w) + n) req)))
        \/ (failed (ClientDo env (requests (trace w) + n) req)
            /\ n = len
            /\ x = LReturn (Err (giveUp (ClientDo env (requests (trace w) + n) req))))).
Proof.
  induction len as [|len IH]; intros a resp d w x w' Hp Hm H.
  - simpl in H. rewrite (attempt_passes _ _ _ Hp) in H.
    exists 0%nat. rewrite Nat.add_0_r. simpl.
    destruct (is_fetch _) eqn:Hf; simplify_eq.
    { split; [done|]. split; [done|]. split; [done|]. split; [lia|]. by left. }
    destruct (Z.of_nat a <? MaxRetries config - 1) eqn:E; [lia|]. simplify_eq.
    split; [done|]. split; [done|]. split; [done|]. split; [lia|].
    right. by apply is_fetch_failed in Hf.
  - change (Z.of_nat <$> seq a (S (S len)))
      with (Z.of_nat a :: (Z.of_nat <$> seq (S a) (S len))) in H.
    rewrite attempts_cons, (attempt_passes _ _ _ Hp) in H.
    destruct (is_fetch _) eqn:Hf; simplify_eq.
    { exists 0%nat. rewrite Nat.add_0_r. simpl.
      split; [lia|]. split; [done|]. split; [done|]. split; [lia|]. by left. }
    destruct (Z.of_nat a <? MaxRetries config - 1) eqn:E; [|lia].
    set (answer := ClientDo env (requests (trace w)) req) in *.
    set (w2 := emit (emit (emit w (EvRequest req answer))
                          (EvLogRetry (Z.of_nat a + 1) d (do_err answer))) (EvSleep d)) in *.
    assert (requests (trace w2) = S (requests (trace w))) as Hk.
    { unfold w2. rewrite !requests_emit. simpl. lia. }
    destruct (IH (S a) _ _ w2 x w' Hp ltac:(lia) H) as (n & Hn & Hc & Ht & Hfail & Hend).
    rewrite Hk in Ht, Hfail, Hend.
    exists (S n).
    replace (requests (trace w) + S n)%nat with (S (requests (trace w)) + n)%nat by lia.
    split; [lia|]. split; [done|]. split; [|split].
    + rewrite Ht. unfold w2. simpl. rewrite <- !app_assoc. simpl.
      fold answer. replace (Z.of_nat (S a)) with (Z.of_nat a + 1) by lia. done.
    + intros [|j] Hj.
      * rewrite Nat.add_0_r. by apply is_fetch_failed in Hf.
      * replace (requests (trace w) + S j)%nat with (S (requests (trace w)) + j)%nat by lia.
        apply Hfail. lia.
    + destruct Hend as [?|(? & -> & ?)]; [by left|by right].
Qed.

Lemma getRemoteTags_cases w r w' :
  cache w !! (registry +:+ "/" +:+ repo) = None ->
  getRemoteTags w = (r, w') ->
  let k := requests (trace w) in
  (w' = w
   /\ (MaxRetries config <= 0 /\ r = Panics nil_deref
       \/ 1 <= MaxRetries config
          /\ ((exists e, NewRequestErr env (tagsURL registry repo) = Some e
                         /\ r = Returns (Err ("error creating HTTP request: " +:+ e)))
              \/ (NewRequestErr env (tagsURL registry repo) = None
                  /\ authMethod = "gcloud" /\ GCRAccessToken config = ""
                  /\ r = Returns (Err "GCR_ACCESS_TOKEN not set in config")))))
  \/ (exists n,
        let answer := ClientDo env (k + n) req in
        passes config env registry repo authMethod
        /\ (n < Z.to_nat (MaxRetries config))%nat
        /\ trace w' = trace w ++ rounds env req k 0 (RetryDelay config) n
                        ++ [EvRequest req answer]
        /\ (forall j, (j < n)%nat -> failed (ClientDo env (k + j) req))
        /\ ((exists resp tags,
               answer = DoOk resp /\ StatusCode resp = 200
               /\ DecodeTags env (Body resp) = Ok tags
               /\ r = Returns (Ok tags)
               /\ cache w' = <[registry +:+ "/" +:+ repo := tags]> (cache w))
            \/ (exists resp e,
                  answer = DoOk resp /\ StatusCode resp = 200
                  /\ DecodeTags env (Body resp) = Err e
                  /\ r = Returns (Err ("error decoding JSON response: " +:+ e))
                  /\ cache w' = cache w)
            \/ (failed answer /\ S n = Z.to_nat (MaxRetries config)
                /\ r = Returns (Err (giveUp answer))
                /\ cache w' = cache w))).
Proof.
  intros Hmiss H k. unfold getRemoteTags in H. rewrite Hmiss in H.
  destruct (decide (MaxRetries config <= 0)) as [Hm|Hm].
  { rewrite (range_nil _ Hm) in H. simpl in H. simplify_eq. left. auto. }
  unfold range in H.
  destruct (Z.to_nat (MaxRetries config)) as [|len] eqn:Hlen; [lia|].
  destruct (NewRequestErr env (tagsURL registry repo)) as [e0|] eqn:Hb.
  { left. change (Z.of_nat <$> seq 0 (S len)) with (0 :: (Z.of_nat <$> seq 1 len)) in H.
    rewrite attempts_cons in H. unfold attempt in H. rewrite Hb in H. simplify_eq.
    split; [done|]. right. split; [lia|]. left. by exists e0. }
  destruct (decide (authMethod = "gcloud" /\ GCRAccessToken config = "")) as [[Ha Ht]|Hg].
  { left. change (Z.of_nat <$> seq 0 (S len)) with (0 :: (Z.of_nat <$> seq 1 len)) in H.
    rewrite attempts_cons in H. unfold attempt in H. rewrite Hb, Ha, Ht in H. simpl in H.
    simplify_eq. split; [done|]. right. split; [lia|]. by right. }
  assert (passes config env registry repo authMethod) as Hp.
  { split; [done|]. intros Ha Ht. apply Hg. done. }
  right.
  destruct (attempts _ _ _ w) as [x w1] eqn:Ha.
  destruct (attempts_history len 0 None (RetryDelay config) w x w1 Hp ltac:(lia) Ha)
    as (n & Hn & Hc & Htr & Hfail & Hend).
  fold k in Htr, Hfail, Hend.
  exists n. simpl. split; [done|]. split; [lia|].
  destruct Hend as [[Hf ->]|(Hf & -> & ->)].
  - destruct (ClientDo env (k + n) req) as [resp|] eqn:Hans; [|done].
    simpl in Hf. apply Z.eqb_eq in Hf. simpl in H.
    destruct (DecodeTags env (Body resp)) as [tags|e] eqn:Hd; simplify_eq; simpl.
    + split; [done|]. split; [done|]. left. exists resp, tags. by rewrite Hc.
    + split; [done|]. split; [done|]. right. left. by exists resp, e.
  - simplify_eq. split; [done|]. split; [done|]. right. right. done.
Qed.

(** X8: a call on a key that is not in the map leaves one of two histories.
    Either the loop never gets to [client.Do] and nothing is recorded: with
    no room for an attempt the call panics, with a URL that cannot be used
    it returns the error of the request, and otherwise, with the token
    missing, the error of the token.
    Or it records [n] failed rounds, [n < MaxRetries], each with its log
    line and its sleep, and one last request without a sleep behind it; the
    call returns what that last answer decides: the decoded list, which is
    then cached, the decoding error, or, after [MaxRetries] requests, the
    give-up error. *)
Theorem getRemoteTags_history w r w' :
  cache w !! (registry +:+ "/" +:+ repo) = None ->
  getRemoteTags w = (r, w') ->
  let k := requests (trace w) in
  (w' = w
   /\ (MaxRetries config <= 0 /\ r = Panics nil_deref
       \/ 1 <= MaxRetries config
          /\ ((exists e, NewRequestErr env (tagsURL registry repo) = Some e
                         /\ r = Returns (Err ("error creating HTTP request: " +:+ e)))
              \/ (NewRequestErr env (tagsURL registry repo) = None
                  /\ authMethod = "gcloud" /\ GCRAccessToken config = ""
                  /\ r = Returns (Err "GCR_ACCESS_TOKEN not set in config")))))
  \/ (exists n,
        let answer := ClientDo env (k + n) req in
        passes config env registry repo authMethod
        /\ (n < Z.to_nat (MaxRetries config))%nat
        /\ trace w' = trace w ++ rounds env req k 0 (RetryDelay config) n
                        ++ [EvRequest req answer]
        /\ (forall j, (j < n)%nat -> failed (ClientDo env (k + j) req))
        /\ ((exists resp tags,
               answer = DoOk resp /\ StatusCode resp = 200
               /\ DecodeTags env (Body resp) = Ok tags
               /\ r = Returns (Ok tags)
               /\ cache w' = <[registry +:+ "/" +:+ repo := tags]> (cache w))
            \/ (exists resp e,
                  answer = DoOk resp /\ StatusCode resp = 200
                  /\ DecodeTags env (Body resp) = Err e
                  /\ r = Returns (Err ("error decoding JSON response: " +:+ e))
                  /\ cache w' = cache w)
            \/ (failed answer /\ S n = Z.to_nat (MaxRetries config)
                /\ r = Returns (Err (giveUp answer))
                /\ cache w' = cache w))).
Proof. apply getRemoteTags_cases. Qed.

Lemma requests_rounds k i d n : requests (rounds env req k i d n) = n.
Proof.
  revert k i d. induction n as [|n IH]; intros k i d; [done|].
  change (rounds env req k i d (S n))
    with ([EvRequest req (ClientDo env k req);
           EvLogRetry (i + 1) d (do_err (ClientDo env k req)); EvSleep d]
          ++ rounds env req (S k) (i + 1) (wrap64 (d * 2)) n).
  unfold requests in *. by rewrite count_app, IH.
Qed.

Lemma retryLogs_rounds k i d n : retryLogs (rounds env req k i d n) = n.
Proof.
  revert k i d. induction n as [|n IH]; intros k i d; [done|].
  change (rounds env req k i d (S n))
    with ([EvRequest req (ClientDo env k req);
           EvLogRetry (i + 1) d (do_err (ClientDo env k req)); EvSleep d]
          ++ rounds env req (S k) (i + 1) (wrap64 (d * 2)) n).
  unfold retryLogs in *. by rewrite count_app, IH.
Qed.

Lemma sleeps_rounds k i d n : sleeps (rounds env req k i d n) = backoff d n.
Proof.
  revert k i d. induction n as [|n IH]; intros k i d; [done|].
  simpl. by rewrite IH.
Qed.

Lemma exchanges_rounds k i d n :
  exchanges (rounds env req k i d n)
  = (fun j => (req, ClientDo env (k + j) req)) <$> seq 0 n.
Proof.
  revert k i d. induction n as [|n IH]; intros k i d; [done|].
  simpl. rewrite IH, Nat.add_0_r. f_equal.
  rewrite <- fmap_S_seq, <- list_fmap_compose. apply list_fmap_ext.
  intros _ j _. simpl. do 2 f_equal. lia.
Qed.

Lemma getRemoteTags_pace w r w' :
  getRemoteTags w = (r, w') ->
  exists n,
    (Z.of_nat n <= Z.max 0 (MaxRetries config))
    /\ requests (trace w') = (requests (trace w) + n)%nat
    /\ exchanges (trace w')
       = exchanges (trace w)
         ++ ((fun j => (req, ClientDo env (requests (trace w) + j) req)) <$> seq 0 n)
    /\ sleeps (trace w') = sleeps (trace w) ++ backoff (RetryDelay config) (n - 1)
    /\ retryLogs (trace w') = (retryLogs (trace w) + (n - 1))%nat
    /\ (n = 0%nat -> trace w' = trace w)
    /\ ((1 <= n)%nat -> exists d, last (trace w') = Some (EvRequest req d)).
Proof.
  intros H.
  destruct (cache w !! (registry +:+ "/" +:+ repo)) as [tags|] eqn:Hk.
  { rewrite (getRemoteTags_hit _ _ _ _ _ _ _ Hk) in H. simplify_eq.
    exists 0%nat. simpl. rewrite !app_nil_r. repeat split; try done; lia. }
  destruct (getRemoteTags_cases w r w' Hk H) as [[-> _]|(n & _ & Hn & Ht & _)].
  { exists 0%nat. simpl. rewrite !app_nil_r. repeat split; try done; lia. }
  exists (S n). rewrite Ht.
  unfold requests at 1, retryLogs at 1, exchanges at 1.
  rewrite !count_app, !sleeps_app, !omap_app.
  fold (requests (rounds env req (requests (trace w)) 0 (RetryDelay config) n)).
  fold (retryLogs (rounds env req (requests (trace w)) 0 (RetryDelay config) n)).
  fold (exchanges (rounds env req (requests (trace w)) 0 (RetryDelay config) n)).
  rewrite requests_rounds, retryLogs_rounds, sleeps_rounds, exchanges_rounds.
  replace (S n - 1)%nat with n by lia.
  rewrite !count_singleton.
  split; [lia|]. split; [unfold requests; simpl; lia|].
  split; [rewrite seq_S, fmap_app; simpl; done|].
  split; [simpl; by rewrite app_nil_r|].
  split; [unfold retryLogs; simpl; lia|].
  split; [done|]. intros _. eexists. by rewrite !app_assoc, last_snoc.
Qed.

(** X9: whatever the answers are, a call that makes [n] requests makes at most
    [MaxRetries] of them, all of them the same request for the tags of its
    repository, and sleeps [n - 1] times, once between two consecutive
    requests and never after the last: first for [RetryDelay], then for
    twice the delay before.  No retry is logged without its sleep. *)
Theorem getRemoteTags_paces_requests w r w' :
  getRemoteTags w = (r, w') ->
  exists n,
    (Z.of_nat n <= Z.max 0 (MaxRetries config))
    /\ requests (trace w') = (requests (trace w) + n)%nat
    /\ exchanges (trace w')
       = exchanges (trace w)
         ++ ((fun j => (req, ClientDo env (requests (trace w) + j) req)) <$> seq 0 n)
    /\ sleeps (trace w') = sleeps (trace w) ++ backoff (RetryDelay config) (n - 1)
    /\ retryLogs (trace w') = (retryLogs (trace w) + (n - 1))%nat
    /\ (n = 0%nat -> trace w' = trace w)
    /\ ((1 <= n)%nat -> exists d, last (trace w') = Some (EvRequest req d)).
Proof. apply getRemoteTags_pace. Qed.

End History.

Lemma fetches_rounds env req k i d n :
  (forall j, (j < n)%nat -> failed (ClientDo env (k + j) req)) ->
  fetches (rounds env req k i d n) = 0%nat.
Proof.
  revert k i d. induction n as [|n IH]; intros k i d Hf; [done|].
  change (rounds env req k i d (S n))
    with ([EvRequest req (ClientDo env k req)]
          ++ [EvLogRetry (i + 1) d (do_err (ClientDo env k req)); EvSleep d]
          ++ rounds env req (S k) (i + 1) (wrap64 (d * 2)) n).
  unfold fetches in *. rewrite !count_app, IH.
  - rewrite count_singleton.
    pose proof (Hf 0%nat ltac:(lia)) as H0. rewrite Nat.add_0_r in H0.
    by rewrite (proj2 (is_fetch_failed req _) H0).
  - intros j Hj. replace (S k + j)%nat with (k + S j)%nat by lia. apply Hf. lia.
Qed.

Section Transient.

Variable config : Config.
Variable env : Env.
Variables registry repo authMethod : string.

Local Abbreviation req := (requestFor config env registry repo authMethod).
Local Abbreviation getRemoteTags := (getRemoteTags config env registry repo authMethod).

(** The first 200 among the answers ends the loop. *)
Lemma getRemoteTags_first_200 w n resp r w' :
  cache w !! (registry +:+ "/" +:+ repo) = None ->
  passes config env registry repo authMethod ->
  (n < Z.to_nat (MaxRetries config))%nat ->
  (forall j, (j < n)%nat -> failed (ClientDo env (requests (trace w) + j) req)) ->
  ClientDo env (requests (trace w) + n) req = DoOk resp ->
  StatusCode resp = 200 ->
  getRemoteTags w = (r, w') ->
  trace w' = trace w ++ rounds env req (requests (trace w)) 0 (RetryDelay config) n
               ++ [EvRequest req (DoOk resp)]
  /\ match DecodeTags env (Body resp) with
     | Ok tags =>
         r = Returns (Ok tags)
         /\ cache w' = <[registry +:+ "/" +:+ repo := tags]> (cache w)
     | Err e =>
         r = Returns (Err ("error decoding JSON response: " +:+ e))
         /\ cache w' = cache w
     end.
Proof.
  intros Hmiss Hp Hn Hfail Hans Hs H.
  destruct (getRemoteTags_cases _ _ _ _ _ _ _ _ Hmiss H)
    as [(_ & [[Hm _]|(_ & [(e & Hb & _)|(_ & Ha & Ht & _)])])
       |(m & _ & Hm & Htr & Hfm & Hend)].
  - lia.
  - destruct Hp as [Hp _]. congruence.
  - destruct Hp as [_ Hp]. by destruct (Hp Ha).
  - assert (m = n) as ->.
    { destruct (Nat.lt_trichotomy m n) as [Hlt|[->|Hgt]]; [|done|].
      - pose proof (Hfail m Hlt) as Hf.
        destruct Hend as [(resp' & ? & Ha & Hs' & _)|[(resp' & ? & Ha & Hs' & _)|(_ & Hlast & _)]];
          [rewrite Ha in Hf; simpl in Hf; lia..|lia].
      - pose proof (Hfm n Hgt) as Hf. rewrite Hans in Hf. simpl in Hf. lia. }
    simpl in Htr, Hend. rewrite Hans in Htr, Hend. split; [done|].
    destruct Hend as [(resp' & tags & ? & _ & Hd & -> & Hc)
                     |[(resp' & e & ? & _ & Hd & -> & Hc)|(Hf & _)]]; simplify_eq.
    + by rewrite Hd.
    + by rewrite Hd.
    + simpl in Hf. lia.
Qed.

(** X10: failures on the way are retried: when the first [n] answers fail,
    [n < MaxRetries], and the next is a 200 whose body decodes, the call
    returns the decoded tags and caches them, after [n + 1] requests, one
    successful fetch and the [n] sleeps of the backoff. *)
Theorem getRemoteTags_retries_until_success w n resp tags :
  cache w !! (registry +:+ "/" +:+ repo) = None ->
  passes config env registry repo authMethod ->
  (n < Z.to_nat (MaxRetries config))%nat ->
  (forall j, (j < n)%nat -> failed (ClientDo env (requests (trace w) + j) req)) ->
  ClientDo env (requests (trace w) + n) req = DoOk resp ->
  StatusCode resp = 200 ->
  DecodeTags env (Body resp) = Ok tags ->
  exists w',
    getRemoteTags w = (Returns (Ok tags), w')
    /\ cache w' = <[registry +:+ "/" +:+ repo := tags]> (cache w)
    /\ requests (trace w') = (requests (trace w) + S n)%nat
    /\ fetches (trace w') = S (fetches (trace w))
    /\ sleeps (trace w') = sleeps (trace w) ++ backoff (RetryDelay config) n.
Proof.
  intros Hmiss Hp Hn Hfail Hans Hs Hd.
  destruct (getRemoteTags w) as [r w'] eqn:H.
  destruct (getRemoteTags_first_200 w n resp r w' Hmiss Hp Hn Hfail Hans Hs H) as [Ht Hr].
  rewrite Hd in Hr. destruct Hr as [-> Hc].
  exists w'. split; [done|]. split; [done|]. rewrite Ht.
  unfold requests at 1, fetches at 1. rewrite !count_app, !sleeps_app, !count_singleton.
  fold (requests (rounds env req (requests (trace w)) 0 (RetryDelay config) n)).
  fold (fetches (rounds env req (requests (trace w)) 0 (RetryDelay config) n)).
  rewrite requests_rounds, sleeps_rounds, (fetches_rounds _ _ _ _ _ _ Hfail).
  simpl. rewrite Hs. simpl. rewrite app_nil_r.
  split; [unfold requests; lia|]. split; [unfold fetches; lia|done].
Qed.

(** X11: a 200 whose body does not decode is not retried and not cached: the
    call returns the decoding error after that request, the map is as
    before, and the same call made again has to fetch again. *)
Theorem getRemoteTags_undecodable_is_final w n resp e :
  cache w !! (registry +:+ "/" +:+ repo) = None ->
  passes config env registry repo authMethod ->
  (n < Z.to_nat (MaxRetries config))%nat ->
  (forall j, (j < n)%nat -> failed (ClientDo env (requests (trace w) + j) req)) ->
  ClientDo env (requests (trace w) + n) req = DoOk resp ->
  StatusCode resp = 200 ->
  DecodeTags env (Body resp) = Err e ->
  exists w',
    getRemoteTags w = (Returns (Err ("error decoding JSON response: " +:+ e)), w')
    /\ cache w' = cache w
    /\ requests (trace w') = (requests (trace w) + S n)%nat
    /\ cache w' !! (registry +:+ "/" +:+ repo) = None.
Proof.
  intros Hmiss Hp Hn Hfail Hans Hs Hd.
  destruct (getRemoteTags w) as [r w'] eqn:H.
  destruct (getRemoteTags_first_200 w n resp r w' Hmiss Hp Hn Hfail Hans Hs H) as [Ht Hr].
  rewrite Hd in Hr. destruct Hr as [-> Hc].
  exists w'. split; [done|]. split; [done|]. rewrite Hc. split; [|done]. rewrite Ht.
  unfold requests at 1. rewrite !count_app, !count_singleton.
  fold (requests (rounds env req (requests (trace w)) 0 (RetryDelay config) n)).
  rewrite requests_rounds. simpl. unfold requests. lia.
Qed.

End Transient.

(** ** The delays *)

Lemma wrap64_shift a q : wrap64 (a + q * 2 ^ 64) = wrap64 a.
Proof.
  unfold wrap64. replace (a + q * 2 ^ 64 + 2 ^ 63) with (a + 2 ^ 63 + q * 2 ^ 64) by lia.
  by rewrite Z_mod_plus_full.
Qed.

Lemma wrap64_mul x c : wrap64 (wrap64 x * c) = wrap64 (x * c).
Proof.
  unfold wrap64 at 2. rewrite Z.mod_eq by lia.
  replace ((x + 2 ^ 63 - 2 ^ 64 * ((x + 2 ^ 63) / 2 ^ 64) - 2 ^ 63) * c)
    with (x * c + (- c * ((x + 2 ^ 63) / 2 ^ 64)) * 2 ^ 64) by lia.
  apply wrap64_shift.
Qed.

Lemma wrap64_range z : - 2 ^ 63 <= wrap64 z < 2 ^ 63.
Proof.
  unfold wrap64. pose proof (Z.mod_pos_bound (z + 2 ^ 63) (2 ^ 64) ltac:(lia)). lia.
Qed.

Lemma wrap64_multiple q : wrap64 (q * 2 ^ 64) = 0.
Proof. by rewrite <- (Z.add_0_l (q * 2 ^ 64)), wrap64_shift. Qed.

Lemma backoff_lookup n : forall d j,
  (j < n)%nat ->
  backoff d n !! j = Some (match j with O => d | _ => wrap64 (d * 2 ^ Z.of_nat j) end).
Proof.
  induction n as [|n IH]; intros d j Hj; [lia|].
  destruct j as [|j]; [done|]. simpl backoff. rewrite lookup_cons.
  rewrite IH by lia. f_equal.
  rewrite (Nat2Z.inj_succ j), Z.pow_succ_r by lia.
  destruct j as [|j]; [f_equal; lia|].
  rewrite wrap64_mul. f_equal. lia.
Qed.

Lemma backoff_wraps d n j :
  - 2 ^ 63 <= d < 2 ^ 63 ->
  (j < n)%nat ->
  backoff d n !! j = Some (wrap64 (d * 2 ^ Z.of_nat j))
  /\ ((64 <= j)%nat -> backoff d n !! j = Some 0).
Proof.
  intros Hd Hj. rewrite (backoff_lookup n d j Hj).
  assert (match j with O => d | _ => wrap64 (d * 2 ^ Z.of_nat j) end
          = wrap64 (d * 2 ^ Z.of_nat j)) as ->.
  { destruct j; [|done]. rewrite Z.mul_1_r. by rewrite wrap64_small. }
  split; [done|]. intros H64. f_equal.
  replace (Z.of_nat j) with (Z.of_nat (j - 64) + 64) by lia.
  rewrite Z.pow_add_r by lia.
  replace (d * (2 ^ Z.of_nat (j - 64) * 2 ^ 64)) with (d * 2 ^ Z.of_nat (j - 64) * 2 ^ 64) by lia.
  apply wrap64_multiple.
Qed.

(** X12: the delay doubles in an [int64]: the sleep before retry [j + 1] of a
    call lasts [RetryDelay * 2^j] wrapped around, a value that can be
    negative, and that is zero from the 64th doubling on. *)
Theorem getRemoteTags_delays_wrap config env registry repo authMethod w r w' j d :
  - 2 ^ 63 <= RetryDelay config < 2 ^ 63 ->
  getRemoteTags config env registry repo authMethod w = (r, w') ->
  sleeps (trace w') !! (length (sleeps (trace w)) + j)%nat = Some d ->
  d = wrap64 (RetryDelay config * 2 ^ Z.of_nat j)
  /\ - 2 ^ 63 <= d < 2 ^ 63
  /\ ((64 <= j)%nat -> d = 0).
Proof.
  intros Hd H Hj.
  destruct (getRemoteTags_pace _ _ _ _ _ _ _ _ H) as (n & _ & _ & _ & Hs & _).
  rewrite Hs, lookup_app_r, Nat.add_comm, Nat.add_sub in Hj by lia.
  pose proof (lookup_lt_Some _ _ _ Hj) as Hlt.
  rewrite length_backoff in Hlt.
  destruct (backoff_wraps _ _ _ Hd Hlt) as [H1 H2].
  rewrite H1 in Hj. simplify_eq.
  split; [done|]. split; [apply wrap64_range|].
  intros H64. specialize (H2 H64). congruence.
Qed.

(** ** Which version is reported *)

Section Latest.

Variable config : Config.
Variable env : Env.
Variable sv : Semver.

Local Abbreviation checkForUpdates := (checkForUpdates config env sv).
Local Abbreviation fetch img := (getRemoteTags config env (Registry img) (Repo img) "gcloud").

Lemma foldl_pickLatest_parsed tags : forall latestVer,
  foldl (pickLatest sv) latestVer tags = foldl (pickVersion sv) latestVer (parsed sv tags).
Proof.
  induction tags as [|tag tags IH]; intros latestVer; [done|].
  simpl. unfold parsed. simpl. unfold pickLatest at 2.
  destruct (NewVersion sv tag) as [v|e]; simpl; by rewrite IH.
Qed.

Lemma pickVersion_among vs : forall latestVer,
  foldl (pickVersion sv) latestVer vs = latestVer
  \/ exists m, m ∈ vs /\ foldl (pickVersion sv) latestVer vs = Some m.
Proof.
  induction vs as [|v vs IH]; intros latestVer; [by left|].
  simpl. destruct (IH (pickVersion sv latestVer v)) as [->|(m & Hm & ->)].
  - unfold pickVersion. destruct latestVer as [l|].
    + destruct (GreaterThan sv v l); [right; exists v; split; [by left|done] | by left].
    + right. exists v. split; [by left|done].
  - right. exists m. split; [by right|done].
Qed.

Lemma pickVersion_stays vs l :
  (forall v, v ∈ vs -> GreaterThan sv v l = false) ->
  foldl (pickVersion sv) (Some l) vs = Some l.
Proof.
  induction vs as [|v vs IH]; intros H; [done|].
  simpl. rewrite (H v) by (by left). apply IH. intros u Hu. apply H. by right.
Qed.

Lemma pickVersion_first pre l post :
  (forall v, v ∈ pre -> GreaterThan sv l v = true) ->
  (forall v, v ∈ post -> GreaterThan sv v l = false) ->
  foldl (pickVersion sv) None (pre ++ l :: post) = Some l.
Proof.
  intros Hpre Hpost. rewrite foldl_app. simpl.
  assert (pickVersion sv (foldl (pickVersion sv) None pre) l = Some l) as ->.
  { destruct (pickVersion_among pre None) as [->|(m & Hm & ->)]; [done|].
    simpl. by rewrite (Hpre m Hm). }
  by apply pickVersion_stays.
Qed.

(** X13: the version in the update line is the first of the greatest: when the
    versions among the remote tags are [pre], then [l], then [post], [l]
    exceeds every one of [pre] and none of [post] exceeds [l], the check
    compares [l] with the current version and, if it is greater, reports
    it. *)
Theorem checkForUpdates_reports_first_greatest img w remoteTags w' currentVer pre l post :
  fetch img w = (Returns (Ok remoteTags), w') ->
  NewVersion sv (Tag img) = Ok currentVer ->
  parsed sv remoteTags = pre ++ l :: post ->
  (forall v, v ∈ pre -> GreaterThan sv l v = true) ->
  (forall v, v ∈ post -> GreaterThan sv v l = false) ->
  checkForUpdates img w
  = (Returns (Ok (if GreaterThan sv l currentVer
                  then updateLine sv (Repo img) currentVer l
                  else "")), w').
Proof.
  intros Hf Hcur Hp Hpre Hpost. unfold checkForUpdates.
  rewrite Hf, Hcur, foldl_pickLatest_parsed, Hp, (pickVersion_first _ _ _ Hpre Hpost).
  by destruct (GreaterThan sv l currentVer).
Qed.

Lemma parsed_Permutation tags1 tags2 :
  tags1 ≡ₚ tags2 -> parsed sv tags1 ≡ₚ parsed sv tags2.
Proof. intros H. unfold parsed. by rewrite H. Qed.

(** X14: whether an update is reported does not depend on the order of the
    remote tags: for two cached lists that are permutations of each other
    the two checks both fail with the same error, or both report nothing,
    or both report an update. *)
Theorem checkForUpdates_ignores_tag_order (Hsv : SemverOrder sv) img w1 w2 tags1 tags2 :
  cache w1 !! (Registry img +:+ "/" +:+ Repo img) = Some tags1 ->
  cache w2 !! (Registry img +:+ "/" +:+ Repo img) = Some tags2 ->
  tags1 ≡ₚ tags2 ->
  exists r1 r2,
    checkForUpdates img w1 = (Returns r1, w1)
    /\ checkForUpdates img w2 = (Returns r2, w2)
    /\ (forall e, r1 = Err e <-> r2 = Err e)
    /\ (r1 = Ok "" <-> r2 = Ok "").
Proof.
  intros H1 H2 Hp. unfold checkForUpdates.
  rewrite (getRemoteTags_hit _ _ _ _ _ _ _ H1), (getRemoteTags_hit _ _ _ _ _ _ _ H2).
  destruct (NewVersion sv (Tag img)) as [cur|e]; [|by eexists _, _].
  pose proof (pickLatest_maximal sv Hsv tags1) as Hl1.
  pose proof (pickLatest_maximal sv Hsv tags2) as Hl2.
  pose proof (parsed_Permutation _ _ Hp) as Hpp.
  destruct (foldl (pickLatest sv) None tags1) as [l1|],
           (foldl (pickLatest sv) None tags2) as [l2|]; simpl in Hl1, Hl2.
  - assert (maximal sv (parsed sv tags1) l2) as Hl2'.
    { destruct Hl2 as [Hin Hmax]. split; [by rewrite Hpp|].
      intros v Hv. apply Hmax. by rewrite <- Hpp. }
    rewrite (maximal_agree sv Hsv _ _ _ cur Hl1 Hl2').
    destruct (GreaterThan sv l2 cur); eexists _, _; (split; [done|]); (split; [done|]);
      split; done.
  - rewrite Hl2 in Hpp. apply Permutation_nil_r in Hpp.
    destruct Hl1 as [Hin _]. rewrite Hpp in Hin. by apply not_elem_of_nil in Hin.
  - rewrite Hl1 in Hpp. symmetry in Hpp. apply Permutation_nil_r in Hpp.
    destruct Hl2 as [Hin _]. rewrite Hpp in Hin. by apply not_elem_of_nil in Hin.
  - eexists _, _. split; [done|]. split; [done|]. split; done.
Qed.

End Latest.

(** ** A run of checks *)

Lemma Forall_fetch_rounds env req k i d n :
  Forall (fun e => fetch_event e = true) (rounds env req k i d n).
Proof.
  revert k i d. induction n as [|n IH]; intros k i d; [done|].
  simpl. repeat (constructor; [done|]). apply IH.
Qed.

(** A call records requests, retry log lines and sleeps, nothing else. *)
Lemma getRemoteTags_events config env registry repo authMethod w r w' :
  getRemoteTags config env registry repo authMethod w = (r, w') ->
  exists evs, trace w' = trace w ++ evs /\ Forall (fun e => fetch_event e = true) evs.
Proof.
  intros H.
  destruct (cache w !! (registry +:+ "/" +:+ repo)) as [tags|] eqn:Hk.
  { rewrite (getRemoteTags_hit _ _ _ _ _ _ _ Hk) in H. simplify_eq.
    exists []. by rewrite app_nil_r. }
  destruct (getRemoteTags_cases _ _ _ _ _ _ _ _ Hk H) as [[-> _]|(n & _ & _ & Ht & _)].
  { exists []. by rewrite app_nil_r. }
  eexists. split; [exact Ht|]. apply Forall_app. split; [apply Forall_fetch_rounds|].
  by constructor.
Qed.

(** A panic of [getRemoteTags] is the nil dereference, with no room for an
    attempt. *)
Lemma getRemoteTags_panics config env registry repo authMethod w msg w' :
  getRemoteTags config env registry repo authMethod w = (Panics msg, w') ->
  msg = nil_deref /\ MaxRetries config <= 0 /\ w' = w
  /\ cache w !! (registry +:+ "/" +:+ repo) = None.
Proof.
  intros H.
  destruct (cache w !! (registry +:+ "/" +:+ repo)) as [tags|] eqn:Hk.
  { by rewrite (getRemoteTags_hit _ _ _ _ _ _ _ Hk) in H. }
  destruct (getRemoteTags_cases _ _ _ _ _ _ _ _ Hk H)
    as [(-> & [[Hm Hr]|(_ & [(e & _ & Hr)|(_ & _ & _ & Hr)])])
       |(n & _ & _ & _ & _ & [(? & ? & _ & _ & _ & Hr & _)
                              |[(? & ? & _ & _ & _ & Hr & _)|(_ & _ & Hr & _)]])];
    simplify_eq. done.
Qed.

Lemma printed_frame t evs :
  Forall (fun e => fetch_event e = true) evs ->
  printed (t ++ evs) = printed t
  /\ checkErrors (t ++ evs) = checkErrors t
  /\ ticks (t ++ evs) = ticks t.
Proof.
  intros H. unfold printed, checkErrors, ticks. rewrite !omap_app, count_app.
  induction H as [|e evs He _ IH]; simpl.
  { rewrite !app_nil_r. unfold count. simpl. auto with lia. }
  destruct IH as (IH1 & IH2 & IH3).
  change (e :: evs) with ([e] ++ evs). rewrite count_app, count_singleton.
  destruct e; simpl in *; try done; rewrite ?IH1, ?IH2; repeat split; try done; lia.
Qed.

Lemma printed_emit w e :
  printed (trace (emit w e))
  = printed (trace w) ++ match e with EvResult line => [line] | _ => [] end.
Proof. unfold emit, printed; simpl. rewrite omap_app. by destruct e. Qed.

Lemma checkErrors_emit w e :
  checkErrors (trace (emit w e))
  = checkErrors (trace w)
    ++ match e with EvLogCheckError repo err => [(repo, err)] | _ => [] end.
Proof. unfold emit, checkErrors; simpl. rewrite omap_app. by destruct e. Qed.

Section Run.

Variable config : Config.
Variable env : Env.
Variable sv : Semver.

Local Abbreviation checkForUpdates := (checkForUpdates config env sv).
Local Abbreviation checkTask := (checkTask config env sv).
Local Abbreviation runChecks := (runChecks config env sv).

Lemma checkForUpdates_line img w update w' :
  checkForUpdates img w = (Returns (Ok update), w') ->
  update = "" \/ reports sv img update.
Proof.
  unfold checkForUpdates. intros H.
  destruct (getRemoteTags _ _ _ _ _ w) as [[[tags|e]|msg] w1]; try done.
  destruct (NewVersion sv (Tag img)) as [cur|e] eqn:Hc; [|done].
  destruct (foldl (pickLatest sv) None tags) as [l|]; [|left; by simplify_eq].
  destruct (GreaterThan sv l cur) eqn:Hg; simplify_eq; [right|by left].
  by exists cur, l.
Qed.

(** What the goroutine of one image does to the world. *)
Lemma checkTask_effects img w x w' :
  checkTask img w = (x, w') ->
  (ticks (trace w') = S (ticks (trace w)))
  /\ (requests (trace w) <= requests (trace w')
      <= requests (trace w) + Z.to_nat (MaxRetries config))%nat
  /\ (forall k tags, cache w !! k = Some tags -> cache w' !! k = Some tags)
  /\ (length (printed (trace w')) + length (checkErrors (trace w'))
      <= S (length (printed (trace w)) + length (checkErrors (trace w))))%nat
  /\ (forall line, line ∈ printed (trace w') ->
        line ∈ printed (trace w) \/ reports sv img line)
  /\ (forall msg, x = Panics msg ->
        msg = nil_deref /\ MaxRetries config <= 0 /\ w' = emit w EvTick
        /\ cache w !! (Registry img +:+ "/" +:+ Repo img) = None).
Proof.
  unfold checkTask. intros H.
  destruct (checkForUpdates img (emit w EvTick)) as [r w1] eqn:Hc.
  assert (exists r0, getRemoteTags config env (Registry img) (Repo img) "gcloud" (emit w EvTick)
                     = (r0, w1)) as [r0 Hg].
  { unfold checkForUpdates in Hc.
    destruct (getRemoteTags _ _ _ _ _ (emit w EvTick)) as [[[tags|e]|msg] w2];
      repeat case_match; simplify_eq; by eexists. }
  destruct (getRemoteTags_events _ _ _ _ _ _ _ _ Hg) as (evs & Ht & Hev).
  destruct (getRemoteTags_counts _ _ _ _ _ _ _ _ Hg) as [Hr _].
  rewrite requests_emit in Hr. simpl in Hr.
  destruct (printed_frame (trace (emit w EvTick)) evs Hev) as (Hp & He & Hk).
  rewrite <- Ht in Hp, He, Hk.
  assert (printed (trace w1) = printed (trace w)) as Hp'.
  { by rewrite Hp, printed_emit, app_nil_r. }
  assert (checkErrors (trace w1) = checkErrors (trace w)) as He'.
  { by rewrite He, checkErrors_emit, app_nil_r. }
  assert (ticks (trace w1) = S (ticks (trace w))) as Hk'.
  { rewrite Hk, ticks_emit. simpl. lia. }
  assert (forall k tags, cache w !! k = Some tags -> cache w1 !! k = Some tags) as Hkeep.
  { intros k tags Hin. by apply (getRemoteTags_keeps _ _ _ _ _ _ _ _ _ _ Hg). }
  destruct r as [[update|e]|msg].
  - destruct (String.eqb_spec update "") as [->|Hne]; simplify_eq.
    + rewrite Hp', He'. split_and!; try done; try lia. by left.
    + rewrite requests_emit, ticks_emit, printed_emit, checkErrors_emit, Hp', He'.
      simpl. rewrite ?app_nil_r, ?length_app. simpl.
      split_and!; try done; try lia.
      intros line [Hin|Hin%list_elem_of_singleton]%elem_of_app; [by left|]. subst.
      destruct (checkForUpdates_line _ _ _ _ Hc) as [?|?]; [done|by right].
  - simplify_eq.
    rewrite requests_emit, ticks_emit, printed_emit, checkErrors_emit, Hp', He'.
    simpl. rewrite ?app_nil_r, ?length_app. simpl.
    split_and!; try done; try lia. by left.
  - simplify_eq. rewrite Hp', He'. split_and!; try done; try lia; try (by left).
    intros msg0 [= <-]. unfold checkForUpdates in Hc.
    destruct (getRemoteTags _ _ _ _ _ (emit w EvTick)) as [[[tags|e]|m] w2] eqn:Hg2;
      repeat case_match; simplify_eq.
    destruct (getRemoteTags_panics _ _ _ _ _ _ _ _ Hg2) as (? & ? & ? & ?). done.
Qed.

Lemma runChecks_effects imgs : forall w x w',
  runChecks imgs w = (x, w') ->
  (ticks (trace w') <= ticks (trace w) + length imgs)%nat
  /\ (x = Returns tt -> ticks (trace w') = (ticks (trace w) + length imgs)%nat)
  /\ (requests (trace w')
      <= requests (trace w) + length imgs * Z.to_nat (MaxRetries config))%nat
  /\ (forall k tags, cache w !! k = Some tags -> cache w' !! k = Some tags)
  /\ (length (printed (trace w')) + length (checkErrors (trace w'))
      <= length (printed (trace w)) + length (checkErrors (trace w)) + length imgs)%nat
  /\ (forall line, line ∈ printed (trace w') ->
        line ∈ printed (trace w) \/ exists img, img ∈ imgs /\ reports sv img line)
  /\ (forall msg, x = Panics msg -> msg = nil_deref /\ MaxRetries config <= 0).
Proof.
  induction imgs as [|img imgs IH]; intros w x w' H; simpl in H.
  { simplify_eq. simpl. split_and!; try done; try lia. by left. }
  destruct (checkTask img w) as [y w1] eqn:Hc.
  destruct (checkTask_effects _ _ _ _ Hc) as (Hk & Hr & Hkeep & Hn & Hl & Hp).
  destruct y as [[]|msg].
  - destruct (IH _ _ _ H) as (Hk2 & Hk2' & Hr2 & Hkeep2 & Hn2 & Hl2 & Hp2). simpl.
    split; [lia|]. split; [intros Hx; specialize (Hk2' Hx); lia|]. split; [lia|].
    split; [by auto|]. split; [lia|]. split; [|done].
    intros line Hin. destruct (Hl2 line Hin) as [Hin1|(img' & ? & ?)].
    + destruct (Hl line Hin1) as [?|?]; [by left|]. right. exists img. split; [by left|done].
    + right. exists img'. split; [by right|done].
  - simplify_eq. simpl. split; [lia|]. split; [done|]. split; [lia|].
    split; [done|]. split; [lia|]. split.
    + intros line Hin. destruct (Hl line Hin) as [?|?]; [by left|].
      right. exists img. split; [by left|done].
    + intros msg0 [= <-]. destruct (Hp msg eq_refl) as (? & ? & _). done.
Qed.

Lemma retryLogs_emit w e :
  retryLogs (trace (emit w e))
  = (retryLogs (trace w) + if is_retry_log e then 1 else 0)%nat.
Proof. apply count_emit. Qed.

(** The goroutine of one image logs at most [MaxRetries - 1] retries. *)
Lemma checkTask_retryLogs img w x w' :
  checkTask img w = (x, w') ->
  (retryLogs (trace w') <= retryLogs (trace w) + (Z.to_nat (MaxRetries config) - 1))%nat.
Proof.
  unfold checkTask. intros H.
  destruct (checkForUpdates img (emit w EvTick)) as [r w1] eqn:Hc.
  assert (exists r0, getRemoteTags config env (Registry img) (Repo img) "gcloud" (emit w EvTick)
                     = (r0, w1)) as [r0 Hg].
  { unfold checkForUpdates in Hc.
    destruct (getRemoteTags _ _ _ _ _ (emit w EvTick)) as [[[tags|e]|msg] w2];
      repeat case_match; simplify_eq; by eexists. }
  destruct (getRemoteTags_pace _ _ _ _ _ _ _ _ Hg) as (n & Hn & _ & _ & _ & Hl & _).
  rewrite retryLogs_emit in Hl. simpl in Hl.
  repeat case_match; simplify_eq; rewrite ?retryLogs_emit; simpl; lia.
Qed.

Lemma runChecks_retryLogs imgs : forall w x w',
  runChecks imgs w = (x, w') ->
  (retryLogs (trace w')
   <= retryLogs (trace w) + length imgs * (Z.to_nat (MaxRetries config) - 1))%nat.
Proof.
  induction imgs as [|img imgs IH]; intros w x w' H; simpl in H.
  { simplify_eq. cbn [length]. lia. }
  destruct (checkTask img w) as [y w1] eqn:Hc.
  pose proof (checkTask_retryLogs _ _ _ _ Hc) as Hl.
  destruct y as [[]|msg].
  - apply IH in H. cbn [length].
    set (k := (Z.to_nat (MaxRetries config) - 1)%nat) in *. clearbody k. lia.
  - simplify_eq. cbn [length].
    set (k := (Z.to_nat (MaxRetries config) - 1)%nat) in *. clearbody k. lia.
Qed.

(** X15: the books of a run of the checks, one after the other: one tick per
    image checked; at most [MaxRetries] requests per image; per image at
    most one line that is an update line or the log line of a failed check,
    and besides these at most [MaxRetries - 1] log lines of retries; no
    entry of the map lost or changed; and if the run panics it is by the
    nil dereference, with [MaxRetries <= 0]. *)
Theorem runChecks_bookkeeping imgs w x w' :
  runChecks imgs w = (x, w') ->
  (ticks (trace w') <= ticks (trace w) + length imgs)%nat
  /\ (x = Returns tt -> ticks (trace w') = (ticks (trace w) + length imgs)%nat)
  /\ (requests (trace w')
      <= requests (trace w) + length imgs * Z.to_nat (MaxRetries config))%nat
  /\ (forall k tags, cache w !! k = Some tags -> cache w' !! k = Some tags)
  /\ (length (printed (trace w')) + length (checkErrors (trace w'))
      <= length (printed (trace w)) + length (checkErrors (trace w)) + length imgs)%nat
  /\ (retryLogs (trace w')
      <= retryLogs (trace w) + length imgs * (Z.to_nat (MaxRetries config) - 1))%nat
  /\ (length (printed (trace w')) + length (checkErrors (trace w')) + retryLogs (trace w')
      <= length (printed (trace w)) + length (checkErrors (trace w)) + retryLogs (trace w)
         + length imgs * Z.to_nat (Z.max 1 (MaxRetries config)))%nat
  /\ (forall msg, x = Panics msg -> msg = nil_deref /\ MaxRetries config <= 0).
Proof.
  intros H. destruct (runChecks_effects _ _ _ _ H) as (? & ? & ? & ? & ? & _ & ?).
  pose proof (runChecks_retryLogs _ _ _ _ H).
  split_and!; try done.
  pose proof (Nat.mul_le_mono_l (S (Z.to_nat (MaxRetries config) - 1))
                (Z.to_nat (Z.max 1 (MaxRetries config))) (length imgs) ltac:(lia)).
  lia.
Qed.


End Run.

(** ** The further properties on concrete runs *)

Lemma parseImageName_fields_witness :
  parseImageName "gcr.io/proj/img:1.0.0"
  = Ok {| Registry := "gcr.io"; Repo := "proj/img"; Tag := "1.0.0" |}
  /\ ((3 <= length (Split "gcr.io/proj/img:1.0.0" slash))%nat ->
      "gcr.io/proj/img:1.0.0" = "gcr.io" +:+ "/" +:+ "proj/img" +:+ ":" +:+ "1.0.0").
Proof.
  split; [reflexivity|].
  apply (parseImageName_fields "gcr.io/proj/img:1.0.0"
           {| Registry := "gcr.io"; Repo := "proj/img"; Tag := "1.0.0" |} eq_refl).
Defined.

Lemma parseImageName_separators_witness :
  parseImageName "localhost:5000/team/app/web:2.1"
  = Ok {| Registry := "localhost:5000"; Repo := "team/app/web"; Tag := "2.1" |}
  /\ occurrences slash "localhost:5000" = 0%nat
  /\ occurrences slash "2.1" = 0%nat
  /\ occurrences colon "2.1" = 0%nat
  /\ (1 <= occurrences slash "team/app/web")%nat.
Proof.
  split; [reflexivity|].
  apply (parseImageName_separators "localhost:5000/team/app/web:2.1"
           {| Registry := "localhost:5000"; Repo := "team/app/web"; Tag := "2.1" |} eq_refl).
Defined.

Lemma parsed_images_share_key_only_with_same_repo_witness :
  parseImageName "gcr.io/proj/img:1.0.0" = Ok (Examples.img "1.0.0")
  /\ parseImageName "gcr.io/proj/img:2.0" = Ok (Examples.img "2.0")
  /\ Registry (Examples.img "1.0.0") = Registry (Examples.img "2.0")
  /\ Repo (Examples.img "1.0.0") = Repo (Examples.img "2.0")
  /\ tagsURL "gcr.io" "proj/img" = tagsURL "gcr.io" "proj/img".
Proof.
  split; [reflexivity|]. split; [reflexivity|].
  apply (parsed_images_share_key_only_with_same_repo
           "gcr.io/proj/img:1.0.0" "gcr.io/proj/img:2.0"
           (Examples.img "1.0.0") (Examples.img "2.0") eq_refl eq_refl eq_refl).
Defined.

Lemma getLocalImages_empty_output_witness :
  TrimSpace Examples.up "" = ""
  /\ getLocalImages Examples.up (Ok "") = (Ok [], [("", "invalid image name format")]).
Proof.
  split; [reflexivity|].
  apply (getLocalImages_empty_output Examples.up "" eq_refl).
Defined.

Lemma loadConfig_fills_zeros_witness :
  loadConfig MoreExamples.config_file = Ok Examples.defaults
  /\ RateLimit Examples.defaults <> 0
  /\ MaxRetries Examples.defaults <> 0
  /\ RetryDelay Examples.defaults <> 0
  /\ setDefaults Examples.defaults = Examples.defaults.
Proof.
  split; [reflexivity|].
  destruct (loadConfig_fills_zeros MoreExamples.config_file Examples.defaults eq_refl)
    as (H1 & H2 & H3 & H4 & _).
  split; [exact H1|]. split; [exact H2|]. split; [exact H3|exact H4].
Defined.

Lemma getRemoteTags_history_witness :
  let call := getRemoteTags Examples.defaults Examples.flaky "gcr.io" "proj/img" "gcloud" in
  let req := requestFor Examples.defaults Examples.flaky "gcr.io" "proj/img" "gcloud" in
  cache Examples.fresh !! "gcr.io/proj/img" = None
  /\ ((call Examples.fresh).2 = Examples.fresh
      \/ exists n,
           (n < 3)%nat
           /\ trace (call Examples.fresh).2
              = trace Examples.fresh
                ++ rounds Examples.flaky req 0 0 1000000000 n
                ++ [EvRequest req (ClientDo Examples.flaky (0 + n) req)]).
Proof.
  intros call req. split; [reflexivity|].
  destruct (getRemoteTags_history Examples.defaults Examples.flaky "gcr.io" "proj/img"
              "gcloud" Examples.fresh (call Examples.fresh).1 (call Examples.fresh).2
              eq_refl eq_refl)
    as [[H _]|(n & _ & Hn & Ht & _)].
  - left. exact H.
  - right. exists n. split; [exact Hn|exact Ht].
Defined.

Lemma getRemoteTags_paces_requests_witness :
  let call := getRemoteTags Examples.defaults Examples.down "gcr.io" "proj/img" "gcloud" in
  exists n,
    requests (trace (call Examples.fresh).2) = (requests (trace Examples.fresh) + n)%nat
    /\ sleeps (trace (call Examples.fresh).2)
       = sleeps (trace Examples.fresh) ++ backoff 1000000000 (n - 1).
Proof.
  intros call.
  destruct (getRemoteTags_paces_requests Examples.defaults Examples.down "gcr.io" "proj/img"
              "gcloud" Examples.fresh (call Examples.fresh).1 (call Examples.fresh).2 eq_refl)
    as (n & _ & Hr & _ & Hs & _).
  exists n. split; [exact Hr|exact Hs].
Defined.

Lemma flaky_passes :
  passes Examples.defaults Examples.flaky "gcr.io" "proj/img" "gcloud".
Proof. split; [reflexivity|]. intros _. discriminate. Qed.

Lemma garbled_passes :
  passes Examples.defaults Examples.garbled "gcr.io" "proj/img" "gcloud".
Proof. split; [reflexivity|]. intros _. discriminate. Qed.

Lemma getRemoteTags_retries_until_success_witness :
  exists w',
    getRemoteTags Examples.defaults Examples.flaky "gcr.io" "proj/img" "gcloud" Examples.fresh
    = (Returns (Ok ["1.0.0"; "1.0.1"; "abc"]), w')
    /\ requests (trace w') = 2%nat
    /\ fetches (trace w') = 1%nat
    /\ sleeps (trace w') = [1000000000].
Proof.
  destruct (getRemoteTags_retries_until_success Examples.defaults Examples.flaky
              "gcr.io" "proj/img" "gcloud" Examples.fresh 1
              {| StatusCode := 200; Body := "1.0.0,1.0.1,abc" |} ["1.0.0"; "1.0.1"; "abc"]
              eq_refl flaky_passes)
    as (w' & H & _ & Hr & Hf & Hs).
  - vm_compute. lia.
  - intros [|j] Hj; [vm_compute; discriminate|lia].
  - reflexivity.
  - reflexivity.
  - reflexivity.
  - exists w'. split; [exact H|]. split; [exact Hr|]. split; [exact Hf|exact Hs].
Defined.

Lemma getRemoteTags_undecodable_is_final_witness :
  exists w',
    getRemoteTags Examples.defaults Examples.garbled "gcr.io" "proj/img" "gcloud"
      Examples.fresh
    = (Returns (Err "error decoding JSON response: invalid character"), w')
    /\ requests (trace w') = 1%nat
    /\ cache w' !! "gcr.io/proj/img" = None.
Proof.
  destruct (getRemoteTags_undecodable_is_final Examples.defaults Examples.garbled
              "gcr.io" "proj/img" "gcloud" Examples.fresh 0
              {| StatusCode := 200; Body := "not json" |} "invalid character"
              eq_refl garbled_passes)
    as (w' & H & _ & Hr & Hk).
  - vm_compute. lia.
  - intros j Hj. lia.
  - reflexivity.
  - reflexivity.
  - reflexivity.
  - exists w'. split; [exact H|]. split; [exact Hr|exact Hk].
Defined.

Lemma getRemoteTags_delays_wrap_witness :
  let call := getRemoteTags Examples.defaults Examples.down "gcr.io" "proj/img" "gcloud" in
  sleeps (trace (call Examples.fresh).2) !! 1%nat = Some 2000000000
  /\ 2000000000 = wrap64 (1000000000 * 2 ^ 1).
Proof.
  intros call. split; [reflexivity|].
  apply (getRemoteTags_delays_wrap Examples.defaults Examples.down "gcr.io" "proj/img"
           "gcloud" Examples.fresh (call Examples.fresh).1 (call Examples.fresh).2 1%nat
           2000000000).
  - vm_compute. split; [discriminate|reflexivity].
  - reflexivity.
  - reflexivity.
Defined.

Lemma checkForUpdates_reports_first_greatest_witness :
  let fetched :=
    getRemoteTags Examples.defaults MoreExamples.ties "gcr.io" "proj/img" "gcloud"
      Examples.fresh in
  parsed PlainSemver.impl ["1.0"; "2.0.0"; "v2.0"; "abc"]
  = [(1, 0, 0)%nat] ++ (2, 0, 0)%nat :: [(2, 0, 0)%nat]
  /\ checkForUpdates Examples.defaults MoreExamples.ties PlainSemver.impl
       (Examples.img "1.0.0") Examples.fresh
     = (Returns (Ok "Update available for proj/img: 1.0.0 -> 2.0.0"), fetched.2).
Proof.
  intros fetched. split; [reflexivity|].
  apply (checkForUpdates_reports_first_greatest Examples.defaults MoreExamples.ties
           PlainSemver.impl (Examples.img "1.0.0") Examples.fresh
           ["1.0"; "2.0.0"; "v2.0"; "abc"] fetched.2 (1, 0, 0)%nat
           [(1, 0, 0)%nat] (2, 0, 0)%nat [(2, 0, 0)%nat] eq_refl eq_refl eq_refl).
  - intros v Hv. apply list_elem_of_singleton in Hv. subst. reflexivity.
  - intros v Hv. apply list_elem_of_singleton in Hv. subst. reflexivity.
Defined.

Lemma checkForUpdates_ignores_tag_order_witness :
  let w2 := {| cache := {[ "gcr.io/proj/img" := ["1.0.1"; "1.0.0"; "abc"] ]}; trace := [] |} in
  exists r1 r2,
    checkForUpdates Examples.defaults Examples.up PlainSemver.impl (Examples.img "1.0.1")
      Examples.warm = (Returns r1, Examples.warm)
    /\ checkForUpdates Examples.defaults Examples.up PlainSemver.impl (Examples.img "1.0.1")
         w2 = (Returns r2, w2)
    /\ (r1 = Ok "" <-> r2 = Ok "").
Proof.
  intros w2.
  destruct (checkForUpdates_ignores_tag_order Examples.defaults Examples.up PlainSemver.impl
              plain_order (Examples.img "1.0.1") Examples.warm w2
              ["1.0.0"; "1.0.1"; "abc"] ["1.0.1"; "1.0.0"; "abc"] eq_refl eq_refl
              (perm_swap "1.0.1" "1.0.0" ["abc"]))
    as (r1 & r2 & H1 & H2 & _ & H).
  exists r1, r2. split; [exact H1|]. split; [exact H2|exact H].
Defined.

Lemma runChecks_bookkeeping_witness :
  let ran := runChecks Examples.defaults Examples.down PlainSemver.impl
               [Examples.img "1.0.0"] Examples.fresh in
  ran.1 = Returns tt
  /\ ticks (trace ran.2) = (ticks (trace Examples.fresh) + 1)%nat
  /\ (requests (trace ran.2) <= requests (trace Examples.fresh) + 1 * 3)%nat
  /\ (length (printed (trace ran.2)) + length (checkErrors (trace ran.2)) <= 0 + 0 + 1)%nat
  /\ (retryLogs (trace ran.2) <= 0 + 1 * 2)%nat.
Proof.
  intros ran. split; [reflexivity|].
  destruct (runChecks_bookkeeping Examples.defaults Examples.down PlainSemver.impl
              [Examples.img "1.0.0"] Examples.fresh ran.1 ran.2 eq_refl)
    as (_ & Hk & Hr & _ & Hn & Hl & _).
  split; [exact (Hk eq_refl)|]. split; [exact Hr|]. split; [exact Hn|exact Hl].
Defined.

(** One image and the registry down: two retries and the failed check are
    logged, three lines in all. *)
Example failed_check_logs_three_lines :
  let ran := runChecks Examples.defaults Examples.down PlainSemver.impl
               [Examples.img "1.0.0"] Examples.fresh in
  retryLogs (trace ran.2) = 2%nat
  /\ printed (trace ran.2) = []
  /\ checkErrors (trace ran.2)
     = [("proj/img", "error getting remote tags: max retries exceeded: "
                     +:+ "error fetching tags: connection refused")].
Proof. vm_compute. split_and!; reflexivity. Qed.

